(** * CoinChrono: value-weighted average holding age of an address

    A shallow embedding of [coin_chrono.py] and the properties of its
    aggregation ([compute_age]) and of the classification and report
    construction in [main].

    Python floats are IEEE 754 binary64 numbers; they are modelled by the
    specification floats of the Standard Library ([spec_float] with
    precision 53 and maximal exponent 1024), so every rounding of the
    program is part of the model.  Python integers are [Z]. *)

From Stdlib Require Import ZArith List String Ascii Bool Lia Permutation.
From Stdlib Require Import Floats.SpecFloat.
Import ListNotations.

Local Open Scope string_scope.
Local Open Scope list_scope.
Local Open Scope Z_scope.

(** ** Exceptions and the error monad *)

(** The exceptions the modelled code can raise.  [DatetimeRangeError]
    stands for what [datetime.fromtimestamp] raises on a timestamp that
    is no valid datetime ([ValueError], [OverflowError] or [OSError],
    depending on the magnitude). *)
Inductive exn : Type :=
| KeyError (key : string)
| ValueError
| OverflowError
| ZeroDivisionError
| DatetimeRangeError.

Inductive result (A : Type) : Type :=
| Ok (a : A)
| Raise (e : exn).

Arguments Ok {A} a.
Arguments Raise {A} e.

Definition rbind {A B : Type} (r : result A) (k : A -> result B) : result B :=
  match r with
  | Ok a => k a
  | Raise e => Raise e
  end.

Declare Scope result_scope.
Delimit Scope result_scope with result.
Notation "x <- c ;; k" := (rbind c (fun x => k))
  (at level 61, c at next level, right associativity) : result_scope.
Local Open Scope result_scope.

Definition is_ok {A : Type} (r : result A) : bool :=
  match r with Ok _ => true | Raise _ => false end.

(** ** Python floats (binary64) *)

Module PyFloat.

Definition float := spec_float.

Definition prec : Z := 53.
Definition emax : Z := 1024.

Definition add : float -> float -> float := SFadd prec emax.
Definition mul : float -> float -> float := SFmul prec emax.
Definition div : float -> float -> float := SFdiv prec emax.

Definition zero : float := S754_zero false.

(** [x == 0] for a float [x]: true for both zeros, false for NaN. *)
Definition is_zero (x : float) : bool := SFeqb x zero.

(** The float nearest to an integer (ties to even); an infinity when
    the integer is beyond the binary64 range. *)
Definition of_Z (n : Z) : float := binary_normalize prec emax n 0 false.

Definition is_infinite (x : float) : bool :=
  match x with S754_infinity _ => true | _ => false end.

(** [float(n)] for an integer [n]. *)
Definition of_int (n : Z) : result float :=
  let x := of_Z n in
  if is_infinite x then Raise OverflowError else Ok x.

(** The correctly rounded quotient of two integers, [b] not zero. *)
Definition quotient (a b : Z) : float :=
  match a, b with
  | Z0, _ => S754_zero (b <? 0)
  | _, Z0 => S754_nan
  | _, _ =>
      SFdiv prec emax
        (S754_finite (a <? 0) (Z.to_pos (Z.abs a)) 0)
        (S754_finite (b <? 0) (Z.to_pos (Z.abs b)) 0)
  end.

(** [a / b] for two integers: true division, correctly rounded. *)
Definition int_truediv (a b : Z) : result float :=
  if b =? 0 then Raise ZeroDivisionError
  else
    let q := quotient a b in
    if is_infinite q then Raise OverflowError else Ok q.

(** [x / y] for two floats. *)
Definition truediv (x y : float) : result float :=
  if is_zero y then Raise ZeroDivisionError else Ok (div x y).

End PyFloat.

(** ** The Python runtime the program calls into

    [int] applied to a string, [str.lower] and the C library's [pow]
    (reached through [10 ** d] for a negative [d]) are built-ins whose
    full behaviour (Unicode digits and case mappings, the platform's
    [pow]) is outside the program.  They form an interface; everything
    below holds for every implementation of it.  [ascii_runtime], further
    down, implements it for plain 7-bit text. *)
Class Runtime : Type := {
  py_int : string -> option Z;
  str_lower : string -> string;
  c_pow : PyFloat.float -> PyFloat.float -> PyFloat.float
}.

(** A Python number: the value of [10 ** d] is an [int] for [d >= 0] and
    a [float] otherwise. *)
Inductive number : Type :=
| Int (n : Z)
| Float (x : PyFloat.float).

(** ** The system clock

    [datetime.now(timezone.utc)] reads the system clock.  The world holds
    the successive readings of the clock, in microseconds since the
    epoch, and the number of readings taken so far. *)
Record world : Type := {
  wall : nat -> Z;
  reads : nat
}.

Definition tick (w : world) : world :=
  {| wall := wall w; reads := S (reads w) |}.

(** Computations that may read the clock and may raise. *)
Definition M (A : Type) : Type := world -> result (A * world).

Definition mret {A : Type} (a : A) : M A := fun w => Ok (a, w).

Definition mbind {A B : Type} (c : M A) (k : A -> M B) : M B :=
  fun w =>
    match c w with
    | Ok (a, w') => k a w'
    | Raise e => Raise e
    end.

Definition lift {A : Type} (r : result A) : M A :=
  fun w =>
    match r with
    | Ok a => Ok (a, w)
    | Raise e => Raise e
    end.

(** The value of a run, the final world left out. *)
Definition outcome {A : Type} (r : result (A * world)) : result A :=
  match r with
  | Ok (a, _) => Ok a
  | Raise e => Raise e
  end.

Declare Scope io_scope.
Delimit Scope io_scope with io.
Notation "x <~ c ;; k" := (mbind c (fun x => k))
  (at level 61, c at next level, right associativity) : io_scope.

(** [datetime.now(timezone.utc)], as microseconds since the epoch. *)
Definition datetime_now : M Z :=
  fun w => Ok (wall w (reads w), tick w).

(** ** Transfer records

    A record is a JSON object of the explorer API, a [dict] whose values
    are strings.  The model keeps the keys the program reads; a key that
    is absent is [None].  Native-currency records have no [tokenDecimal]
    and no [tokenSymbol]. *)
Record event : Type := {
  timeStamp : option string;
  value : option string;
  tokenDecimal : option string;
  to : option string;
  contractAddress : option string;
  tokenSymbol : option string
}.

(** [d[key]] *)
Definition getitem (key : string) (field : option string) : result string :=
  match field with
  | Some s => Ok s
  | None => Raise (KeyError key)
  end.

(** ** datetime *)

(** The timestamps [datetime.fromtimestamp(t, tz=timezone.utc)] accepts:
    the seconds of the years 1 to 9999. *)
Definition min_timestamp : Z := -62135596800.
Definition max_timestamp : Z := 253402300799.

(** A datetime is the number of microseconds since the epoch. *)
Definition fromtimestamp (t : Z) : result Z :=
  if (min_timestamp <=? t) && (t <=? max_timestamp)
  then Ok (t * 1000000)
  else Raise DatetimeRangeError.

(** [(now - ts).total_seconds()]: a timedelta holds whole microseconds
    and [total_seconds] divides them by [10**6]. *)
Definition total_seconds (now ts : Z) : result PyFloat.float :=
  PyFloat.int_truediv (now - ts) (10 ^ 6).

Definition seconds_per_day : PyFloat.float := PyFloat.of_Z 86400.

(** ** The grouping dictionary and the rows of the report *)

(** The key of [by_token]: [(contractAddress, tokenSymbol, tokenDecimal)],
    three strings. *)
Definition asset_key : Type := string * string * string.

Definition key_eqb (k1 k2 : asset_key) : bool :=
  let '(c1, s1, d1) := k1 in
  let '(c2, s2, d2) := k2 in
  String.eqb c1 c2 && String.eqb s1 s2 && String.eqb d1 d2.

(** A [dict] keeps its keys in insertion order: an association list with
    one entry per key. *)
Definition dict : Type := list (asset_key * list event).

(** [by_token.setdefault(key, []).append(tx)] *)
Fixpoint setdefault_append (key : asset_key) (tx : event) (by_token : dict) : dict :=
  match by_token with
  | [] => [(key, [tx])]
  | (k, evs) :: rest =>
      if key_eqb k key then (k, evs ++ [tx]) :: rest
      else (k, evs) :: setdefault_append key tx rest
  end.

(** [by_token.keys()], in insertion order. *)
Definition keys (by_token : dict) : list asset_key := map fst by_token.

(** All the records held by the groups of [by_token]. *)
Definition records (by_token : dict) : list event := List.concat (map snd by_token).

(** What inserting under [key] does to the keys of a [dict]. *)
Definition add_key (ks : list asset_key) (key : asset_key) : list asset_key :=
  if existsb (key_eqb key) ks then ks else ks ++ [key].

(** The [tokenSymbol] component of a key. *)
Definition symbol_of (key : asset_key) : string :=
  let '(_, symbol, _) := key in symbol.

(** A cell of the table: a string, or a float formatted by an f-string
    with a fixed number of fractional digits ([f"{x:.6f}"]). *)
Inductive cell : Type :=
| Str (s : string)
| Fmt (digits : nat) (x : PyFloat.float).

(** ** The aggregation in the words of the specification

    A transfer record holds three integers; the aggregation maps every
    record to an amount and an age in days and sums the amounts and the
    products, starting from [0.0], in the order of the group.  The
    arithmetic is that of binary64 floats; [now] is in microseconds. *)
Module Spec.

Record TransferRecord : Type := {
  timestamp : Z;
  rawAmount : Z;
  decimals : Z
}.

(** [amount = rawAmount / 10^decimals] *)
Definition amount (r : TransferRecord) : PyFloat.float :=
  PyFloat.quotient (rawAmount r) (10 ^ decimals r).

(** [ageDays = (now - timestamp) / 86400], from the seconds elapsed. *)
Definition ageDays (now : Z) (r : TransferRecord) : PyFloat.float :=
  PyFloat.div (PyFloat.quotient (now - timestamp r * 1000000) (10 ^ 6))
              seconds_per_day.

Definition totalAmount (group : list TransferRecord) : PyFloat.float :=
  fold_left PyFloat.add (map amount group) PyFloat.zero.

Definition weightedAgeSum (now : Z) (group : list TransferRecord) : PyFloat.float :=
  fold_left PyFloat.add
    (map (fun r => PyFloat.mul (amount r) (ageDays now r)) group)
    PyFloat.zero.

(** The records kept by a key-preserving deduplication: every key once,
    at its first occurrence. *)
Fixpoint first_seen (keys : list asset_key) : list asset_key :=
  match keys with
  | [] => []
  | k :: rest => k :: filter (fun k' => negb (key_eqb k k')) (first_seen rest)
  end.

(** The clock readings that are datetimes. *)
Definition valid_now (now : Z) : Prop :=
  min_timestamp * 1000000 <= now <= max_timestamp * 1000000 + 999999.

(** The records whose timestamp is a datetime, whose scale is a power
    of ten with a natural exponent and whose amount is within the range
    of binary64. *)
Definition in_range (r : TransferRecord) : Prop :=
  min_timestamp <= timestamp r <= max_timestamp /\
  0 <= decimals r /\
  Z.abs (rawAmount r) < 2 ^ 1023 * 10 ^ decimals r.

End Spec.

Section Program.

Context {RT : Runtime}.

(** [int(s)] *)
Definition int_ (s : string) : result Z :=
  match py_int s with
  | Some n => Ok n
  | None => Raise ValueError
  end.

(** [10 ** d] *)
Definition pow10 (d : Z) : result number :=
  if 0 <=? d then Ok (Int (10 ^ d))
  else
    x <- PyFloat.of_int d ;;
    Ok (Float (c_pow (PyFloat.of_Z 10) x)).

(** [a / b] for an integer [a]. *)
Definition int_div (a : Z) (b : number) : result PyFloat.float :=
  match b with
  | Int n => PyFloat.int_truediv a n
  | Float y =>
      x <- PyFloat.of_int a ;;
      PyFloat.truediv x y
  end.

(** [int(ev.get("tokenDecimal", 18))] *)
Definition decimals (ev : event) : result Z :=
  match tokenDecimal ev with
  | Some s => int_ s
  | None => Ok 18
  end.

(** [(now - ts).total_seconds() / 86400.0] with
    [ts = datetime.fromtimestamp(int(ev["timeStamp"]), tz=timezone.utc)] *)
Definition age_days (now : Z) (ev : event) : result PyFloat.float :=
  s <- getitem "timeStamp" (timeStamp ev) ;;
  t <- int_ s ;;
  ts <- fromtimestamp t ;;
  secs <- total_seconds now ts ;;
  PyFloat.truediv secs seconds_per_day.

(** [int(ev["value"]) / (10 ** int(ev.get("tokenDecimal", 18)))] *)
Definition amount (ev : event) : result PyFloat.float :=
  s <- getitem "value" (value ev) ;;
  v <- int_ s ;;
  d <- decimals ev ;;
  p <- pow10 d ;;
  int_div v p.

(** One iteration of the loop of [compute_age] on the pair
    [(total_amount, total_age)]. *)
Definition accumulate_step (now : Z) (acc : PyFloat.float * PyFloat.float) (ev : event)
  : result (PyFloat.float * PyFloat.float) :=
  let '(total_amount, total_age) := acc in
  a <- age_days now ev ;;
  m <- amount ev ;;
  Ok (PyFloat.add total_amount m, PyFloat.add total_age (PyFloat.mul m a)).

(** The loop of [compute_age]. *)
Fixpoint accumulate (now : Z) (events : list event) (acc : PyFloat.float * PyFloat.float)
  : result (PyFloat.float * PyFloat.float) :=
  match events with
  | [] => Ok acc
  | ev :: rest =>
      acc' <- accumulate_step now acc ev ;;
      accumulate now rest acc'
  end.

(** What follows the loop: the guarded division. *)
Definition average (totals : PyFloat.float * PyFloat.float) : result PyFloat.float :=
  let '(total_amount, total_age) := totals in
  if PyFloat.is_zero total_amount then Ok PyFloat.zero
  else PyFloat.truediv total_age total_amount.

(** The body of [compute_age] once the clock has been read. *)
Definition compute_age_at (now : Z) (events : list event) : result PyFloat.float :=
  totals <- accumulate now events (PyFloat.zero, PyFloat.zero) ;;
  average totals.

Definition compute_age (events : list event) : M PyFloat.float :=
  (now <~ datetime_now ;;
   lift (compute_age_at now events))%io.

(** *** Classification and the report, from [main] *)

(** [tx["to"].lower() == address.lower()] *)
Definition is_incoming (address : string) (tx : event) : result bool :=
  t <- getitem "to" (to tx) ;;
  Ok (String.eqb (str_lower t) (str_lower address)).

(** [[tx for tx in txs if tx["to"].lower() == address.lower()]] *)
Fixpoint incoming (address : string) (txs : list event) : result (list event) :=
  match txs with
  | [] => Ok []
  | tx :: rest =>
      b <- is_incoming address tx ;;
      rest' <- incoming address rest ;;
      Ok (if b then tx :: rest' else rest')
  end.

(** [(tx["contractAddress"], tx["tokenSymbol"], tx["tokenDecimal"])] *)
Definition key_of (tx : event) : result asset_key :=
  c <- getitem "contractAddress" (contractAddress tx) ;;
  s <- getitem "tokenSymbol" (tokenSymbol tx) ;;
  d <- getitem "tokenDecimal" (tokenDecimal tx) ;;
  Ok (c, s, d).

(** One iteration of the grouping loop. *)
Definition group_step (address : string) (by_token : dict) (tx : event) : result dict :=
  b <- is_incoming address tx ;;
  if b then
    key <- key_of tx ;;
    Ok (setdefault_append key tx by_token)
  else Ok by_token.

(** The grouping loop over [token_txs]. *)
Fixpoint group_tokens (address : string) (txs : list event) (by_token : dict) : result dict :=
  match txs with
  | [] => Ok by_token
  | tx :: rest =>
      by_token' <- group_step address by_token tx ;;
      group_tokens address rest by_token'
  end.

(** [sum(int(tx['value']) for tx in evs)] *)
Fixpoint sum_values (evs : list event) (acc : Z) : result Z :=
  match evs with
  | [] => Ok acc
  | tx :: rest =>
      s <- getitem "value" (value tx) ;;
      v <- int_ s ;;
      sum_values rest (acc + v)
  end.

(** The row of one token group. *)
Definition token_row (item : asset_key * list event) : M (list cell) :=
  let '((_, symbol, dec), evs) := item in
  (avg_age <~ compute_age evs ;;
   lift (total <- sum_values evs 0 ;;
         d <- int_ dec ;;
         p <- pow10 d ;;
         balance <- int_div total p ;;
         Ok [Str symbol; Fmt 6 balance; Fmt 1 avg_age]))%io.

(** The loop over [by_token.items()], appending to [rows]. *)
Fixpoint token_rows (items : dict) (rows : list (list cell)) : M (list (list cell)) :=
  match items with
  | [] => mret rows
  | item :: rest =>
      (row <~ token_row item ;;
       token_rows rest (rows ++ [row]))%io
  end.

Definition header : list cell :=
  [Str "Asset"; Str "Balance"; Str "Average Hold (days)"].

(** [main] after the command line has been read: [address] is the
    address given, [eth_txs] and [token_txs] are what
    [fetch_eth_balance_events] and [fetch_erc20_events] returned.  The
    value is [rows], the table handed to [tabulate], whose first row is
    printed as the column headings. *)
Definition main (address : string) (eth_txs token_txs : list event)
  : M (list (list cell)) :=
  (eth_in <~ lift (incoming address eth_txs) ;;
   eth_age <~ compute_age eth_in ;;
   by_token <~ lift (group_tokens address token_txs []) ;;
   eth_row <~ lift (total <- sum_values eth_in 0 ;;
                    balance <- PyFloat.int_truediv total (10 ^ 18) ;;
                    Ok [Str "ETH"; Fmt 6 balance; Fmt 1 eth_age]) ;;
   token_rows by_token [header; eth_row])%io.

(** *** Vocabulary of the properties *)

(** The sum of the amounts of a group, as the loop forms it. *)
Fixpoint sum_amounts (events : list event) (acc : PyFloat.float) : result PyFloat.float :=
  match events with
  | [] => Ok acc
  | ev :: rest =>
      m <- amount ev ;;
      sum_amounts rest (PyFloat.add acc m)
  end.

(** The record has a [timeStamp] that [int] and
    [datetime.fromtimestamp] accept. *)
Definition valid_timestamp (ev : event) : Prop :=
  exists s t, timeStamp ev = Some s /\ py_int s = Some t /\
              min_timestamp <= t <= max_timestamp.

(** The three integers the aggregation reads off a record. *)
Definition reads_as (ev : event) (r : Spec.TransferRecord) : Prop :=
  (exists s, timeStamp ev = Some s /\ py_int s = Some (Spec.timestamp r)) /\
  (exists s, value ev = Some s /\ py_int s = Some (Spec.rawAmount r)) /\
  decimals ev = Ok (Spec.decimals r).

(** The recipient of the record is [address], letter case aside. *)
Definition recipient_matches (address : string) (tx : event) : bool :=
  match to tx with
  | Some t => String.eqb (str_lower t) (str_lower address)
  | None => false
  end.

(** Whether a record can be processed does not depend on the sums
    reached before it. *)
Definition processable (now : Z) (ev : event) : bool :=
  is_ok (age_days now ev) && is_ok (amount ev).

(** Every group holds records of its own key only. *)
Definition keyed (d : dict) : Prop :=
  forall k evs tx, In (k, evs) d -> In tx evs -> key_of tx = Ok k.

(** A row of the table for the token group of [key]. *)
Definition row_of (key : asset_key) (row : list cell) : Prop :=
  exists balance avg_age,
    row = [Str (symbol_of key); Fmt 6 balance; Fmt 1 avg_age].

End Program.

(** ** The runtime on plain 7-bit text *)

Module Ascii7.

Definition digit_of (c : ascii) : option Z :=
  let n := Z.of_N (N_of_ascii c) in
  if (48 <=? n) && (n <=? 57) then Some (n - 48) else None.

Fixpoint digits (s : string) (acc : Z) : option Z :=
  match s with
  | EmptyString => Some acc
  | String c rest =>
      match digit_of c with
      | Some d => digits rest (10 * acc + d)
      | None => None
      end
  end.

Definition unsigned (s : string) : option Z :=
  match s with
  | EmptyString => None
  | _ => digits s 0
  end.

(** [int] on an optional sign followed by decimal digits, the form in
    which the explorer writes numbers.  Python's [int] accepts more
    (white space around the number, underscores between digits, other
    scripts' digits) and, in recent versions, refuses numerals of more
    than 4300 digits; on every other string this function refuses.  It
    serves the closed runs only: the general theorems hold for every
    [Runtime]. *)
Definition int_of_string (s : string) : option Z :=
  match s with
  | String "-"%char rest => option_map Z.opp (unsigned rest)
  | String "+"%char rest => unsigned rest
  | _ => unsigned s
  end.

Definition lower_char (c : ascii) : ascii :=
  let n := N_of_ascii c in
  if ((65 <=? n) && (n <=? 90))%N then ascii_of_N (n + 32) else c.

Fixpoint lower (s : string) : string :=
  match s with
  | EmptyString => EmptyString
  | String c rest => String (lower_char c) (lower rest)
  end.

(** [pow(10.0, y)] for a negative integral [y]: the float nearest to
    the power. *)
Definition pow (x y : PyFloat.float) : PyFloat.float :=
  match y with
  | S754_finite true m e =>
      if 0 <=? e then PyFloat.quotient 1 (10 ^ (Z.pos m * 2 ^ e))
      else
        let k := Z.pos m / 2 ^ (- e) in
        PyFloat.quotient 1 (10 ^ k)
  | _ => S754_nan
  end.

End Ascii7.

Definition ascii_runtime : Runtime := {|
  py_int := Ascii7.int_of_string;
  str_lower := Ascii7.lower;
  c_pow := Ascii7.pow
|}.


(** ** Concrete groups *)

Module Examples.

Definition day_us : Z := 86400 * 1000000.

(** A clock whose [n]-th reading is day [20000 + n] after the epoch. *)
Definition clock_from (day : Z) : world :=
  {| wall := fun n => (day + Z.of_nat n) * day_us; reads := 0 |}.

Definition w0 : world := clock_from 20000.

(** A native-currency record: no [tokenDecimal], no [tokenSymbol]. *)
Definition native (ts v recipient : string) : event :=
  {| timeStamp := Some ts; value := Some v; tokenDecimal := None;
     to := Some recipient; contractAddress := Some ""; tokenSymbol := None |}.

Definition token (ts v recipient contract symbol dec : string) : event :=
  {| timeStamp := Some ts; value := Some v; tokenDecimal := Some dec;
     to := Some recipient; contractAddress := Some contract;
     tokenSymbol := Some symbol |}.

(** 100 units received ten days before the reading of [w0], 300 units
    two days before it. *)
Definition hundred_ten_days : event :=
  native "1727136000" "100000000000000000000" "0xabc".
Definition three_hundred_two_days : event :=
  native "1727827200" "300000000000000000000" "0xabc".

(** The same two receipts as the aggregation reads them. *)
Definition r100 : Spec.TransferRecord :=
  {| Spec.timestamp := 1727136000;
     Spec.rawAmount := 100000000000000000000;
     Spec.decimals := 18 |}.
Definition r300 : Spec.TransferRecord :=
  {| Spec.timestamp := 1727827200;
     Spec.rawAmount := 300000000000000000000;
     Spec.decimals := 18 |}.

Definition r_minus_five : Spec.TransferRecord :=
  {| Spec.timestamp := 1727136000; Spec.rawAmount := -5; Spec.decimals := 18 |}.

Definition four : PyFloat.float := PyFloat.of_Z 4.

Definition minus_five : event := native "1727136000" "-5" "0xabc".

(** Three receipts of a token without fractional digits. *)
Definition big : event := token "1727136000" "10000000000000000" "0xabc" "0xc1" "AAA" "0".
Definition one_a : event := token "1727136000" "1" "0xabc" "0xc1" "AAA" "0".
Definition one_b : event := token "1727136000" "1" "0xabc" "0xc1" "AAA" "0".

(** An address as queried and the same address in capitals. *)
Definition query_address : string := "0xabcdef0123456789abcdef0123456789abcdef01".
Definition shouting : event :=
  native "1727136000" "1" "0xABCDEF0123456789ABCDEF0123456789ABCDEF01".
Definition elsewhere : event :=
  native "1727136000" "1" "0x1111111111111111111111111111111111111111".

(** A receipt of nothing. *)
Definition zero_value : event := native "1727136000" "0" "0xabc".

(** A world whose clock stands still at the first reading of [w0],
    after five readings. *)
Definition frozen : world :=
  {| wall := fun _ => 20000 * day_us; reads := 5 |}.

(** Token receipts of the queried address: two of one asset, and one
    that the same contract reports with six decimals. *)
Definition tok_a : event :=
  token "1727136000" "5000000000000000000" query_address "0xc1" "AAA" "18".
Definition tok_b : event :=
  token "1727827200" "7000000000000000000" query_address "0xc1" "AAA" "18".
Definition tok_six : event :=
  token "1727827200" "7000000" query_address "0xc1" "AAA" "6".
Definition tok_other : event :=
  token "1727827200" "1" "0x1111111111111111111111111111111111111111" "0xc2" "BBB" "18".

(** The first second of the year 10000. *)
Definition year_10000 : event := native "253402300800" "1" "0xabc".

Definition tiny_scale : event := token "1727136000" "5" "0xabc" "0xc1" "AAA" "-400".

End Examples.


(** ** Signs of floats *)

(** The floats that are not below zero: NaN, and the zeros, finite
    numbers and infinities whose sign bit is clear. *)
Definition sign_clear (x : PyFloat.float) : bool :=
  match x with
  | S754_nan => true
  | S754_zero s | S754_infinity s | S754_finite s _ _ => negb s
  end.

(** The same without NaN: [+0.0], the positive numbers and [+inf]. *)
Definition positive_or_zero (x : PyFloat.float) : bool :=
  match x with
  | S754_nan => false
  | S754_zero s | S754_infinity s | S754_finite s _ _ => negb s
  end.

(** ** Further vocabulary *)

(** A record as the data model of the specification admits it at the
    reading [now]: an amount that is not negative, received no later than
    [now]. *)
Definition received_by (now : Z) (r : Spec.TransferRecord) : Prop :=
  0 <= Spec.rawAmount r /\ Spec.timestamp r * 1000000 <= now.

(** [by_token.get(key, [])] *)
Fixpoint get (by_token : dict) (key : asset_key) : list event :=
  match by_token with
  | [] => []
  | (k, evs) :: rest => if key_eqb k key then evs else get rest key
  end.

(** The record has the three fields of the key, with the values of the
    key: [contractAddress], [tokenSymbol] and [tokenDecimal]. *)
Definition carries (tx : event) (key : asset_key) : Prop :=
  let '(contract, symbol, dec) := key in
  contractAddress tx = Some contract /\
  tokenSymbol tx = Some symbol /\
  tokenDecimal tx = Some dec.

Section Vocabulary.

Context {RT : Runtime}.

(** What the loop of [compute_age] raises at a record, if anything: the
    age is computed before the amount. *)
Definition record_error (now : Z) (ev : event) : option exn :=
  match age_days now ev with
  | Raise e => Some e
  | Ok _ =>
      match amount ev with
      | Raise e => Some e
      | Ok _ => None
      end
  end.

(** The record has the three fields of [key]. *)
Definition has_key (key : asset_key) (tx : event) : bool :=
  match key_of tx with
  | Ok k => key_eqb k key
  | Raise _ => false
  end.

(** The record can be classified as a token transfer of [address]: it
    has a recipient and, when the recipient is [address], the three
    fields of the key. *)
Definition classifiable (address : string) (tx : event) : Prop :=
  to tx <> None /\
  (recipient_matches address tx = true ->
   contractAddress tx <> None /\ tokenSymbol tx <> None /\ tokenDecimal tx <> None).

(** What a record must satisfy for any report to come out. *)
Definition readable (tx : event) : Prop :=
  valid_timestamp tx /\ is_ok (amount tx) = true.

(** The three integers of a record, read off its fields: [timeStamp]
    and [value] through [int], the decimals through [int] from
    [tokenDecimal], and 18 for a record without that field. *)
Definition records_as (ev : event) (r : Spec.TransferRecord) : Prop :=
  (exists s, timeStamp ev = Some s /\ py_int s = Some (Spec.timestamp r)) /\
  (exists s, value ev = Some s /\ py_int s = Some (Spec.rawAmount r)) /\
  match tokenDecimal ev with
  | Some s => py_int s = Some (Spec.decimals r)
  | None => Spec.decimals r = 18
  end.

End Vocabulary.

(** ** The script: fetching and printing

    [requests.get] and the decoding of its body are the program's only
    contact with the network.  A [network] gives, for the query string
    of a request to the explorer, what came back.  What the program does
    to the outside is its trace of effects, in order. *)

(** The [params] of a request. *)
Record params : Type := {
  p_module : string;
  p_action : string;
  p_address : string;
  p_startblock : Z;
  p_endblock : Z;
  p_sort : string;
  p_apikey : string
}.

(** [data], the JSON object of a reply: the keys the program reads.  A
    status that is not the string ["1"] is any other string. *)
Record reply : Type := {
  status : option string;
  message : option string;
  result_ : option (list event)
}.

Inductive response : Type :=
| NoResponse                              (* [requests.get] raises *)
| BadBody (text : string)                 (* [resp.json()] raises *)
| Json (text : string) (data : reply).    (* [resp.text] and [resp.json()] *)

Definition network : Type := params -> response.

Inductive effect : Type :=
| Request (p : params)                    (* a GET to the explorer *)
| MissingKeyMessage                       (* stderr: no API key *)
| Banner (address : string)               (* stdout: the address analysed *)
| EthErrorMessage (detail : string)       (* stderr: native request failed *)
| TokenErrorMessage (detail : string)     (* stderr: token request failed *)
| Table (rows : list (list cell)).        (* stdout: [tabulate(rows, ...)] *)

(** How a run ends when it does not reach its last line. *)
Inductive halt : Type :=
| SystemExit (code : Z)                   (* [sys.exit(code)] *)
| Uncaught (e : exn)                      (* an exception of the core *)
| RequestException                        (* raised by [requests.get] *)
| JSONDecodeError.                        (* raised by [resp.json()] *)

(** The lines of a fetch function after [requests.get]: decode, check
    the status, return the result. *)
Definition read_response (error_message : string -> effect) (resp : response)
  : list effect * (halt + list event) :=
  match resp with
  | NoResponse => ([], inl RequestException)
  | BadBody _ => ([], inl JSONDecodeError)
  | Json text data =>
      match status data with
      | None => ([], inl (Uncaught (KeyError "status")))
      | Some st =>
          if String.eqb st "1" then
            match result_ data with
            | Some txs => ([], inr txs)
            | None => ([], inl (Uncaught (KeyError "result")))
            end
          else
            ([error_message (match message data with
                             | Some m => m
                             | None => text
                             end)],
             inl (SystemExit 1))
      end
  end.

Definition eth_params (address api_key : string) : params :=
  {| p_module := "account"; p_action := "txlist"; p_address := address;
     p_startblock := 0; p_endblock := 99999999; p_sort := "asc";
     p_apikey := api_key |}.

Definition erc20_params (address api_key : string) : params :=
  {| p_module := "account"; p_action := "tokentx"; p_address := address;
     p_startblock := 0; p_endblock := 99999999; p_sort := "asc";
     p_apikey := api_key |}.

Definition fetch_eth_balance_events (address api_key : string) (net : network)
  : list effect * (halt + list event) :=
  let p := eth_params address api_key in
  let '(printed, r) := read_response EthErrorMessage (net p) in
  (Request p :: printed, r).

Definition fetch_erc20_events (address api_key : string) (net : network)
  : list effect * (halt + list event) :=
  let p := erc20_params address api_key in
  let '(printed, r) := read_response TokenErrorMessage (net p) in
  (Request p :: printed, r).

(** The requests of a trace, in order. *)
Fixpoint requests (trace : list effect) : list params :=
  match trace with
  | [] => []
  | Request p :: rest => p :: requests rest
  | _ :: rest => requests rest
  end.

(** Whether a trace prints a table. *)
Definition prints_table (trace : list effect) : bool :=
  existsb (fun e => match e with Table _ => true | _ => false end) trace.

Section Script.

Context {RT : Runtime}.

(** [main] from the filtering of the native transfers to their age. *)
Definition main_head (address : string) (eth_txs : list event)
  : M (list event * PyFloat.float) :=
  (eth_in <~ lift (incoming address eth_txs) ;;
   eth_age <~ compute_age eth_in ;;
   mret (eth_in, eth_age))%io.

(** [main] from the grouping of the token transfers to [rows]. *)
Definition main_tail (address : string) (eth_in : list event)
    (eth_age : PyFloat.float) (token_txs : list event)
  : M (list (list cell)) :=
  (by_token <~ lift (group_tokens address token_txs []) ;;
   eth_row <~ lift (total <- sum_values eth_in 0 ;;
                    balance <- PyFloat.int_truediv total (10 ^ 18) ;;
                    Ok [Str "ETH"; Fmt 6 balance; Fmt 1 eth_age]) ;;
   token_rows by_token [header; eth_row])%io.

(** The whole of [main]: [address] is the value of [--address],
    [apikey] that of [--apikey], which is [None] when neither the option
    nor the environment variable is set.  The value is the trace of
    effects and how the run halted, [None] when it ran to its end. *)
Definition script (address : string) (apikey : option string)
    (net : network) (w : world) : list effect * option halt :=
  match apikey with
  | None | Some EmptyString => ([MissingKeyMessage], Some (SystemExit 1))
  | Some key =>
      let '(t1, r1) := fetch_eth_balance_events address key net in
      match r1 with
      | inl h => (Banner address :: t1, Some h)
      | inr eth_txs =>
          match main_head address eth_txs w with
          | Raise e => (Banner address :: t1, Some (Uncaught e))
          | Ok ((eth_in, eth_age), w1) =>
              let '(t2, r2) := fetch_erc20_events address key net in
              match r2 with
              | inl h => (Banner address :: t1 ++ t2, Some h)
              | inr token_txs =>
                  match main_tail address eth_in eth_age token_txs w1 with
                  | Raise e => (Banner address :: t1 ++ t2, Some (Uncaught e))
                  | Ok (rows, _) =>
                      (Banner address :: t1 ++ t2 ++ [Table rows], None)
                  end
              end
          end
      end
  end.

End Script.

(** ** Further concrete inputs *)

Module MoreExamples.

(** Fifty units received at the very instant of the first reading of
    [Examples.w0]. *)
Definition just_now : event :=
  Examples.native "1728000000" "50000000000000000000" "0xabc".
Definition r_now : Spec.TransferRecord :=
  {| Spec.timestamp := 1728000000;
     Spec.rawAmount := 50000000000000000000;
     Spec.decimals := 18 |}.

(** The explorer's reply for an address without transactions. *)
Definition no_transactions : network :=
  fun _ =>
    Json "{...}"
         {| status := Some "0";
            message := Some "No transactions found";
            result_ := Some [] |}.

(** [Examples.tok_six] as the aggregation reads it: six decimals. *)
Definition r_six : Spec.TransferRecord :=
  {| Spec.timestamp := 1727827200; Spec.rawAmount := 7000000; Spec.decimals := 6 |}.

(** A receipt of nothing, as the aggregation reads it. *)
Definition r_zero : Spec.TransferRecord :=
  {| Spec.timestamp := 1727136000; Spec.rawAmount := 0; Spec.decimals := 18 |}.

End MoreExamples.


(** * Properties *)

(** ** The range of binary64

    The rounding that ends a division yields an infinity only when the
    exact quotient is at least [2^1024 - 2^970]; below [2^1023] it never
    does.  The proof follows the two shifts of [binary_round_aux] through
    the widths of the mantissas. *)
Section FloatRange.

Import PyFloat.

Lemma digits2_pos_size (p : positive) : digits2_pos p = Pos.size p.
Proof. induction p as [p IH | p IH |]; simpl; congruence. Qed.

Lemma Zdigits2_nonneg (m : Z) : 0 <= Zdigits2 m.
Proof. destruct m; simpl; lia. Qed.

Lemma Zdigits2_le (m k : Z) : 0 <= k -> 0 <= m < 2 ^ k -> Zdigits2 m <= k.
Proof.
  intros Hk [Hm Hlt]. destruct m as [| p | p]; simpl; try lia.
  rewrite digits2_pos_size.
  pose proof (Pos.size_le p) as Hs.
  apply Pos2Z.pos_le_pos in Hs. rewrite Pos2Z.inj_pow in Hs.
  change (Z.pos p~0) with (2 * Z.pos p) in Hs.
  assert (Hp : 2 ^ Z.pos (Pos.size p) < 2 ^ (k + 1)).
  { rewrite Z.pow_add_r, Z.pow_1_r by lia. lia. }
  apply Z.pow_lt_mono_r_iff in Hp; lia.
Qed.

Lemma Zdigits2_bound (m : Z) : 0 <= m -> m < 2 ^ Zdigits2 m.
Proof.
  intros Hm. destruct m as [| p | p]; simpl; try lia.
  rewrite digits2_pos_size.
  pose proof (Pos.size_gt p) as Hs.
  apply Pos2Z.pos_lt_pos in Hs. now rewrite Pos2Z.inj_pow in Hs.
Qed.

Lemma Zdigits2_succ (m : Z) : 0 <= m -> Zdigits2 (m + 1) <= Zdigits2 m + 1.
Proof.
  intros Hm. pose proof (Zdigits2_nonneg m) as Hd.
  pose proof (Zdigits2_bound m Hm) as Hb.
  apply Zdigits2_le; [lia |].
  rewrite Z.pow_add_r, Z.pow_1_r by lia. lia.
Qed.

Lemma shr_1_digits (s : shr_record) :
  0 <= shr_m s ->
  0 <= shr_m (shr_1 s) /\
  Zdigits2 (shr_m (shr_1 s)) = Z.max 0 (Zdigits2 (shr_m s) - 1).
Proof.
  destruct s as [m r t]. cbn [shr_m]. intros Hm.
  destruct m as [| [p | p |] | p];
    cbn [shr_1 shr_m Zdigits2 digits2_pos]; rewrite ?Pos2Z.inj_succ;
    split; lia.
Qed.

Lemma iter_shr_1_digits (p : positive) : forall s : shr_record,
  0 <= shr_m s ->
  0 <= shr_m (iter_pos shr_1 p s) /\
  Zdigits2 (shr_m (iter_pos shr_1 p s)) = Z.max 0 (Zdigits2 (shr_m s) - Z.pos p).
Proof.
  induction p as [p IH | p IH |]; intros s Hs; simpl iter_pos.
  - destruct (shr_1_digits s Hs) as [H1 E1].
    destruct (IH _ H1) as [H2 E2]. destruct (IH _ H2) as [H3 E3].
    split; [exact H3 |]. rewrite E3, E2, E1. lia.
  - destruct (IH _ Hs) as [H2 E2]. destruct (IH _ H2) as [H3 E3].
    split; [exact H3 |]. rewrite E3, E2. lia.
  - apply shr_1_digits, Hs.
Qed.

Lemma shr_m_of_loc (m : Z) (l : location) : shr_m (shr_record_of_loc m l) = m.
Proof. destruct l as [| []]; reflexivity. Qed.

(** What [shr_fexp] does to the exponent and to the width of the mantissa. *)
Lemma shr_fexp_digits (m e : Z) (l : location) :
  0 <= m ->
  let r := shr_fexp prec emax m e l in
  0 <= shr_m (fst r) /\
  snd r = Z.max e (fexp prec emax (Zdigits2 m + e)) /\
  Zdigits2 (shr_m (fst r)) = Z.max 0 (Zdigits2 m - (snd r - e)).
Proof.
  intros Hm. unfold shr_fexp, shr.
  pose proof (Zdigits2_nonneg m) as Hd.
  destruct (fexp prec emax (Zdigits2 m + e) - e) as [| n | n] eqn:En; simpl fst; simpl snd.
  - rewrite shr_m_of_loc. repeat split; lia.
  - destruct (iter_shr_1_digits n (shr_record_of_loc m l)) as [H1 E1].
    { now rewrite shr_m_of_loc. }
    rewrite shr_m_of_loc in E1. repeat split; [exact H1 | lia |].
    rewrite E1. lia.
  - rewrite shr_m_of_loc. repeat split; lia.
Qed.

Lemma round_nearest_even_digits (m : Z) (l : location) :
  0 <= m ->
  0 <= round_nearest_even m l /\
  Zdigits2 (round_nearest_even m l) <= Zdigits2 m + 1.
Proof.
  intros Hm. pose proof (Zdigits2_succ m Hm) as Hs.
  unfold round_nearest_even.
  destruct l as [| []]; try destruct (Z.even m); split; lia.
Qed.

(** Rounding a mantissa stays finite when the value is below [2^1023]. *)
Lemma binary_round_aux_finite (s : bool) (m e : Z) (l : location) :
  0 <= m -> e <= 970 -> Zdigits2 m + e <= 1023 ->
  is_infinite (binary_round_aux prec emax s m e l) = false.
Proof.
  intros Hm He Hd. unfold binary_round_aux.
  pose proof (shr_fexp_digits m e l Hm) as H1. cbv zeta in H1.
  destruct (shr_fexp prec emax m e l) as [mrs1 e1].
  simpl fst in H1; simpl snd in H1. destruct H1 as (P1 & E1 & D1).
  pose proof (round_nearest_even_digits (shr_m mrs1) (loc_of_shr_record mrs1) P1) as [P2 D2].
  pose proof (shr_fexp_digits _ e1 loc_Exact P2) as H3. cbv zeta in H3.
  destruct (shr_fexp prec emax _ e1 loc_Exact) as [mrs2 e2].
  simpl fst in H3; simpl snd in H3. destruct H3 as (P3 & E3 & D3).
  destruct (shr_m mrs2) as [| p | p]; try reflexivity.
  assert (Hle : e2 <= emax - prec).
  { unfold fexp, emin, prec, emax in *. lia. }
  apply Z.leb_le in Hle. rewrite Hle. reflexivity.
Qed.

(** The quotient and exponent [SFdiv] hands to the rounding. *)
Lemma div_core_bounds (m1 m2 : positive) :
  Z.pos m1 < 2 ^ 1023 * Z.pos m2 ->
  let '(q, e, _) := SFdiv_core_binary prec emax (Z.pos m1) 0 (Z.pos m2) 0 in
  0 <= q /\ e <= 0 /\ Zdigits2 q + e <= 1023.
Proof.
  intros Hlt. unfold SFdiv_core_binary.
  set (e := Z.min _ (0 - 0)).
  assert (He : e <= 0) by (subst e; lia).
  set (m' := match 0 - 0 - e with 0 => _ | Z.pos _ => _ | Z.neg _ => _ end).
  assert (Hm' : m' = Z.pos m1 * 2 ^ (- e)).
  { subst m'. destruct (0 - 0 - e) as [| p | p] eqn:Es.
    - replace (- e) with 0 by lia. lia.
    - rewrite Z.shiftl_mul_pow2 by lia. f_equal. f_equal. lia.
    - lia. }
  destruct (Z.div_eucl m' (Z.pos m2)) as [q r] eqn:Ediv.
  assert (Hq : q = m' / Z.pos m2) by (unfold Z.div; now rewrite Ediv).
  assert (Hpow : 0 < 2 ^ (- e)) by (apply Z.pow_pos_nonneg; lia).
  assert (Hq0 : 0 <= q).
  { rewrite Hq. apply Z.div_pos; [| lia]. rewrite Hm'. lia. }
  split; [exact Hq0 |]. split; [exact He |].
  assert (Hub : q < 2 ^ (1023 - e)).
  { rewrite Hq. apply Z.div_lt_upper_bound; [lia |].
    rewrite Hm'. replace (1023 - e) with (1023 + - e) by lia.
    rewrite Z.pow_add_r by lia.
    set (B := 2 ^ 1023) in *. clearbody B. nia. }
  pose proof (Zdigits2_le q (1023 - e)). lia.
Qed.

Lemma quotient_finite (a b : Z) :
  b <> 0 -> Z.abs a < 2 ^ 1023 * Z.abs b ->
  is_infinite (quotient a b) = false.
Proof.
  intros Hb Hab. unfold quotient.
  destruct a as [| pa | pa]; [reflexivity | |];
    (destruct b as [| pb | pb]; [contradiction | |]).
  all: cbn [Z.abs Z.to_pos] in *; unfold SFdiv.
  all: match goal with
       | |- context [SFdiv_core_binary _ _ (Z.pos ?m1) 0 (Z.pos ?m2) 0] =>
           pose proof (div_core_bounds m1 m2 Hab) as Hc;
           destruct (SFdiv_core_binary prec emax (Z.pos m1) 0 (Z.pos m2) 0)
             as [[q e] l]
       end.
  all: destruct Hc as (Hq & He & Hd); apply binary_round_aux_finite; lia.
Qed.

Lemma int_truediv_ok (a b : Z) :
  b <> 0 -> Z.abs a < 2 ^ 1023 * Z.abs b ->
  int_truediv a b = Ok (quotient a b).
Proof.
  intros Hb Hab. unfold int_truediv.
  apply Z.eqb_neq in Hb. rewrite Hb.
  now rewrite quotient_finite by (try apply Z.eqb_neq; assumption).
Qed.
End FloatRange.

(** ** The aggregation *)

Section Aggregation.

Context {RT : Runtime}.

Import PyFloat.

Lemma seconds_per_day_nonzero : is_zero seconds_per_day = false.
Proof. reflexivity. Qed.

Lemma pow2_60_le : 2 ^ 60 <= 2 ^ 1023.
Proof. apply Z.pow_le_mono_r; lia. Qed.

(** The age of a record whose timestamp is a datetime. *)
Lemma age_days_ok (now : Z) (ev : event) (s : string) (t : Z) :
  Spec.valid_now now ->
  timeStamp ev = Some s -> py_int s = Some t ->
  min_timestamp <= t <= max_timestamp ->
  age_days now ev =
    Ok (div (quotient (now - t * 1000000) (10 ^ 6)) seconds_per_day).
Proof.
  intros Hnow Hs Ht Hr. unfold age_days, int_, fromtimestamp, total_seconds.
  rewrite Hs. cbn [getitem rbind]. rewrite Ht. cbn [rbind].
  replace ((min_timestamp <=? t) && (t <=? max_timestamp)) with true
    by (symmetry; apply andb_true_iff; split; apply Z.leb_le; lia).
  cbn [rbind]. rewrite int_truediv_ok.
  - cbn [rbind]. unfold truediv. now rewrite seconds_per_day_nonzero.
  - discriminate.
  - pose proof pow2_60_le as Hp. change (2 ^ 60) with 1152921504606846976 in Hp.
    unfold Spec.valid_now, min_timestamp, max_timestamp in *.
    change (Z.abs (10 ^ 6)) with 1000000. lia.
Qed.

(** The amount of a record with a natural number of decimals. *)
Lemma amount_ok (ev : event) (s : string) (v d : Z) :
  value ev = Some s -> py_int s = Some v ->
  decimals ev = Ok d -> 0 <= d ->
  Z.abs v < 2 ^ 1023 * 10 ^ d ->
  amount ev = Ok (quotient v (10 ^ d)).
Proof.
  intros Hs Hv Hd Hd0 Hb. unfold amount, int_, pow10.
  rewrite Hs. cbn [getitem rbind]. rewrite Hv. cbn [rbind].
  rewrite Hd. cbn [rbind].
  replace (0 <=? d) with true by (symmetry; apply Z.leb_le; lia).
  cbn [rbind int_div].
  assert (Hp : 0 < 10 ^ d) by (apply Z.pow_pos_nonneg; lia).
  apply int_truediv_ok; [lia |]. now rewrite (Z.abs_eq (10 ^ d)) by lia.
Qed.

Lemma accumulate_app (now : Z) (l1 l2 : list event) :
  forall acc,
    accumulate now (l1 ++ l2) acc =
      (acc' <- accumulate now l1 acc ;; accumulate now l2 acc').
Proof.
  induction l1 as [| ev l1 IH]; intros acc; [reflexivity |].
  cbn [app accumulate]. destruct (accumulate_step now acc ev) as [acc' | e].
  - cbn [rbind]. apply IH.
  - reflexivity.
Qed.

(** On records in range the loop computes the two sums of the
    specification. *)
Lemma accumulate_sums (now : Z) (events : list event) (group : list Spec.TransferRecord) :
  Spec.valid_now now ->
  Forall2 reads_as events group ->
  Forall Spec.in_range group ->
  forall total_amount total_age,
    accumulate now events (total_amount, total_age) =
      Ok (fold_left add (map Spec.amount group) total_amount,
          fold_left add
            (map (fun r => mul (Spec.amount r) (Spec.ageDays now r)) group)
            total_age).
Proof.
  intros Hnow Hrd. induction Hrd as [| ev r events group Hev _ IH];
    intros Hrange total_amount total_age; [reflexivity |].
  inversion Hrange as [| r' g' Hr Hg]; subst.
  destruct Hev as ((s1 & Hs1 & Ht) & (s2 & Hs2 & Hv) & Hd).
  destruct Hr as (Hts & Hd0 & Hb).
  cbn [accumulate accumulate_step].
  rewrite (age_days_ok now ev s1 _ Hnow Hs1 Ht Hts). cbn [rbind].
  rewrite (amount_ok ev s2 _ _ Hs2 Hv Hd Hd0 Hb). cbn [rbind].
  rewrite (IH Hg). reflexivity.
Qed.

(** The total the loop reaches is the sum of the amounts, whatever the
    ages are. *)
Lemma accumulate_total (now : Z) (events : list event) :
  Spec.valid_now now ->
  Forall valid_timestamp events ->
  forall total_amount total_age total,
    sum_amounts events total_amount = Ok total ->
    exists weighted,
      accumulate now events (total_amount, total_age) = Ok (total, weighted).
Proof.
  intros Hnow Hts. induction Hts as [| ev events Hev _ IH];
    intros total_amount total_age total Hsum.
  - cbn in Hsum. injection Hsum as <-. now exists total_age.
  - destruct Hev as (s & t & Hs & Ht & Hr).
    cbn [sum_amounts] in Hsum. cbn [accumulate accumulate_step].
    rewrite (age_days_ok now ev s t Hnow Hs Ht Hr). cbn [rbind].
    destruct (amount ev) as [m | e]; [| discriminate].
    cbn [rbind] in *. apply IH, Hsum.
Qed.

Lemma positive_not_zero (x : float) : SFltb zero x = true -> is_zero x = false.
Proof. destruct x as [[] | [] | | [] m e]; cbn; congruence. Qed.

Lemma compute_age_run (events : list event) (w : world) :
  compute_age events w =
    match compute_age_at (wall w (reads w)) events with
    | Ok x => Ok (x, tick w)
    | Raise e => Raise e
    end.
Proof. reflexivity. Qed.

(** The guarded division never raises. *)
Lemma average_ok (totals : float * float) :
  average totals =
    Ok (if is_zero (fst totals) then zero else div (snd totals) (fst totals)).
Proof.
  destruct totals as [total_amount total_age]. unfold average, truediv.
  cbn [fst snd]. now destruct (is_zero total_amount).
Qed.

Lemma records_as_reads_as (ev : event) (r : Spec.TransferRecord) :
  records_as ev r -> reads_as ev r.
Proof.
  intros (Ht & Hv & Hd). split; [exact Ht |]. split; [exact Hv |].
  unfold decimals, int_. destruct (tokenDecimal ev) as [s |].
  - now rewrite Hd.
  - now rewrite Hd.
Qed.

Lemma sum_amounts_total (events : list event) (group : list Spec.TransferRecord) :
  Forall2 reads_as events group ->
  Forall Spec.in_range group ->
  forall acc,
    sum_amounts events acc = Ok (fold_left add (map Spec.amount group) acc).
Proof.
  intros Hrd. induction Hrd as [| ev r events group Hev _ IH];
    intros Hrange acc; [reflexivity |].
  inversion Hrange as [| r' g' Hr Hg]; subst.
  destruct Hev as (_ & (s2 & Hs2 & Hv) & Hd). destruct Hr as (_ & Hd0 & Hb).
  cbn [sum_amounts]. rewrite (amount_ok ev s2 _ _ Hs2 Hv Hd Hd0 Hb).
  cbn [rbind map fold_left]. apply (IH Hg).
Qed.

(** C1.  A group whose total amount is zero, in particular the empty
    group, has average age exactly [0.0] and no error is raised; a group
    whose total amount is positive has the quotient of the weighted age
    sum by the total amount.  The group's timestamps are datetimes and
    its total amount, the sum of [rawAmount / 10^decimals] over the
    records, exists.  For a group whose fields read as the records
    [group], the total is the sum of the amounts of [group] and the
    weighted age sum that of their products with the ages. *)
Theorem compute_age_zero_total
    (events : list event) (group : list Spec.TransferRecord)
    (w : world) (total : float) :
  Spec.valid_now (wall w (reads w)) ->
  Forall valid_timestamp events ->
  sum_amounts events zero = Ok total ->
  compute_age [] w = Ok (zero, tick w) /\
  (is_zero total = true -> compute_age events w = Ok (zero, tick w)) /\
  (Forall2 records_as events group ->
   Forall Spec.in_range group ->
   total = Spec.totalAmount group /\
   (SFltb zero total = true ->
    compute_age events w =
      Ok (div (Spec.weightedAgeSum (wall w (reads w)) group)
              (Spec.totalAmount group), tick w))).
Proof.
  intros Hnow Hts Hsum.
  destruct (accumulate_total _ events Hnow Hts zero zero total Hsum)
    as [weighted Hacc].
  split; [reflexivity |]. split.
  - intros Hz. rewrite compute_age_run. unfold compute_age_at.
    rewrite Hacc. cbn [rbind]. rewrite average_ok. cbn [fst snd].
    now rewrite Hz.
  - intros Hrec Hrange.
    assert (Hrd : Forall2 reads_as events group)
      by (eapply Forall2_impl; [apply records_as_reads_as | exact Hrec]).
    assert (Htot : total = Spec.totalAmount group).
    { rewrite (sum_amounts_total events group Hrd Hrange zero) in Hsum.
      now injection Hsum as <-. }
    split; [exact Htot |]. intros Hpos.
    rewrite compute_age_run. unfold compute_age_at.
    rewrite (accumulate_sums _ events group Hnow Hrd Hrange). cbn [rbind].
    rewrite average_ok. cbn [fst snd].
    change (fold_left add (map Spec.amount group) zero)
      with (Spec.totalAmount group).
    rewrite <- Htot, (positive_not_zero total Hpos). reflexivity.
Qed.

(** On records in range the aggregation returns a value. *)
Lemma compute_age_returns
    (events : list event) (group : list Spec.TransferRecord) (w : world) :
  Spec.valid_now (wall w (reads w)) ->
  Forall2 reads_as events group ->
  Forall Spec.in_range group ->
  exists x, compute_age events w = Ok (x, tick w).
Proof.
  intros Hnow Hrd Hrange.
  rewrite compute_age_run. unfold compute_age_at.
  rewrite (accumulate_sums _ events group Hnow Hrd Hrange). cbn [rbind].
  rewrite average_ok. eauto.
Qed.

(** C2.  For a group of well-formed records the loop computes, per
    record, [amount = rawAmount / 10^decimals] and
    [ageDays = (now - timestamp) / 86400], accumulates the total amount
    and the sum of [amount * ageDays], and the result is the quotient of
    the two (the total not being zero); 100 units aged ten days and 300
    units aged two days have average age [4.0].  The three integers of a
    record are those of its fields [timeStamp], [value] and
    [tokenDecimal]. *)
Theorem compute_age_weighted_average
    (events : list event) (group : list Spec.TransferRecord) (w : world) :
  Spec.valid_now (wall w (reads w)) ->
  Forall2 records_as events group ->
  Forall Spec.in_range group ->
  accumulate (wall w (reads w)) events (zero, zero) =
    Ok (Spec.totalAmount group, Spec.weightedAgeSum (wall w (reads w)) group) /\
  (is_zero (Spec.totalAmount group) = false ->
   compute_age events w =
     Ok (div (Spec.weightedAgeSum (wall w (reads w)) group)
             (Spec.totalAmount group), tick w)) /\
  (map Spec.amount [Examples.r100; Examples.r300] = [of_Z 100; of_Z 300] /\
   map (Spec.ageDays (wall Examples.w0 0)) [Examples.r100; Examples.r300] =
     [of_Z 10; of_Z 2] /\
   compute_age (RT := ascii_runtime)
     [Examples.hundred_ten_days; Examples.three_hundred_two_days] Examples.w0 =
     Ok (Examples.four, tick Examples.w0)).
Proof.
  intros Hnow Hrec Hrange.
  assert (Hrd : Forall2 reads_as events group)
    by (eapply Forall2_impl; [apply records_as_reads_as | exact Hrec]).
  assert (Hacc : accumulate (wall w (reads w)) events (zero, zero) =
                   Ok (Spec.totalAmount group,
                       Spec.weightedAgeSum (wall w (reads w)) group))
    by exact (accumulate_sums _ events group Hnow Hrd Hrange zero zero).
  split; [exact Hacc |]. split.
  - intros Hnz. rewrite compute_age_run. unfold compute_age_at.
    rewrite Hacc. cbn [rbind]. rewrite average_ok. cbn [fst snd].
    now rewrite Hnz.
  - repeat split; vm_compute; reflexivity.
Qed.


(** C10, as the code has it.  On records whose fields are integers,
    whose timestamp is a datetime, whose number of decimals is not
    negative and whose amount is within the range of binary64,
    [compute_age] returns a value; and the division that ends it is
    reached with a non-zero divisor only, so it raises nothing. *)
Theorem compute_age_total
    (events : list event) (group : list Spec.TransferRecord) (w : world) :
  Spec.valid_now (wall w (reads w)) ->
  Forall2 reads_as events group ->
  Forall Spec.in_range group ->
  (exists x, compute_age events w = Ok (x, tick w)) /\
  (forall totals,
      average totals =
        Ok (if is_zero (fst totals) then zero
            else div (snd totals) (fst totals))).
Proof.
  intros Hnow Hrd Hrange. split; [| exact average_ok].
  exact (compute_age_returns events group w Hnow Hrd Hrange).
Qed.

(** C3, as the code has it.  [compute_age] takes the group only and
    reads the system clock itself, once; its result is determined by
    the group and that reading. *)
Theorem compute_age_clock (events : list event) (w1 w2 : world) :
  wall w1 (reads w1) = wall w2 (reads w2) ->
  outcome (compute_age events w1) = outcome (compute_age events w2) /\
  (forall x w', compute_age events w1 = Ok (x, w') -> w' = tick w1).
Proof.
  intros Hclock. rewrite !compute_age_run, Hclock. split.
  - now destruct (compute_age_at _ events).
  - intros x w'. destruct (compute_age_at _ events); congruence.
Qed.

(** C4, as the code has it.  A record whose raw amount is negative or
    zero is not rejected: its amount enters the two sums like any other
    and the group has a result. *)
Theorem nonpositive_amount_included
    (pre post : list event) (ev : event)
    (gpre gpost : list Spec.TransferRecord) (r : Spec.TransferRecord)
    (w : world) :
  Spec.valid_now (wall w (reads w)) ->
  Forall2 reads_as pre gpre -> reads_as ev r -> Forall2 reads_as post gpost ->
  Forall Spec.in_range (gpre ++ r :: gpost) ->
  Spec.rawAmount r <= 0 ->
  accumulate (wall w (reads w)) (pre ++ [ev]) (zero, zero) =
    Ok (add (Spec.totalAmount gpre) (Spec.amount r),
        add (Spec.weightedAgeSum (wall w (reads w)) gpre)
            (mul (Spec.amount r) (Spec.ageDays (wall w (reads w)) r))) /\
  (exists x, compute_age (pre ++ ev :: post) w = Ok (x, tick w)).
Proof.
  intros Hnow Hpre Hev Hpost Hrange _. split.
  - assert (Hin : Forall Spec.in_range (gpre ++ [r])).
    { apply Forall_app in Hrange as [H1 H2]. apply Forall_app. split; [exact H1 |].
      inversion H2; subst. now constructor. }
    assert (Hrd : Forall2 reads_as (pre ++ [ev]) (gpre ++ [r])).
    { apply Forall2_app; [exact Hpre |]. now constructor. }
    rewrite (accumulate_sums _ _ _ Hnow Hrd Hin).
    unfold Spec.totalAmount, Spec.weightedAgeSum.
    now rewrite !map_app, !fold_left_app.
  - assert (Hrd : Forall2 reads_as (pre ++ ev :: post) (gpre ++ r :: gpost)).
    { apply Forall2_app; [exact Hpre |]. now constructor. }
    exact (compute_age_returns _ _ w Hnow Hrd Hrange).
Qed.

(** *** Reordering a group *)

Lemma add_comm (x y : float) : add x y = add y x.
Proof.
  destruct x as [[] | [] | | sx mx ex], y as [[] | [] | | sy my ey];
    try reflexivity.
  unfold add, SFadd. now rewrite (Z.min_comm ey ex), Z.add_comm.
Qed.

(** Starting from [0.0], two terms can be added in either order. *)
Lemma add_zero_swap (x y : float) :
  add (add zero x) y = add (add zero y) x.
Proof.
  destruct x as [[] | [] | | sx mx ex], y as [[] | [] | | sy my ey];
    try reflexivity.
  change (add zero (S754_finite sx mx ex)) with (S754_finite sx mx ex).
  change (add zero (S754_finite sy my ey)) with (S754_finite sy my ey).
  apply add_comm.
Qed.

Lemma accumulate_is_ok (now : Z) (events : list event) :
  forall acc,
    is_ok (accumulate now events acc) = forallb (processable now) events.
Proof.
  induction events as [| ev events IH]; intros [total_amount total_age];
    [reflexivity |].
  cbn [accumulate accumulate_step forallb]. unfold processable.
  destruct (age_days now ev) as [a | e]; [| reflexivity].
  destruct (amount ev) as [m | e]; [| reflexivity].
  cbn [rbind is_ok andb]. apply IH.
Qed.

Lemma compute_age_at_is_ok (now : Z) (events : list event) :
  is_ok (compute_age_at now events) = forallb (processable now) events.
Proof.
  unfold compute_age_at. rewrite <- (accumulate_is_ok now events (zero, zero)).
  destruct (accumulate now events (zero, zero)) as [totals | e]; [| reflexivity].
  cbn [rbind]. now rewrite average_ok.
Qed.

Lemma forallb_permutation {A : Type} (f : A -> bool) (l l' : list A) :
  Permutation l l' -> forallb f l = forallb f l'.
Proof.
  induction 1 as [| x l l' _ IH | x y l | l l' l'' _ IH1 _ IH2]; cbn.
  - reflexivity.
  - now rewrite IH.
  - now destruct (f x), (f y).
  - congruence.
Qed.

Lemma compute_age_at_swap (now : Z) (e1 e2 : event) :
  is_ok (compute_age_at now [e1; e2]) = true ->
  compute_age_at now [e1; e2] = compute_age_at now [e2; e1].
Proof.
  rewrite compute_age_at_is_ok. cbn [forallb]. unfold processable.
  destruct (age_days now e1) as [a1 | ?] eqn:Ea1; [| discriminate].
  destruct (amount e1) as [m1 | ?] eqn:Em1; [| discriminate].
  destruct (age_days now e2) as [a2 | ?] eqn:Ea2; [| discriminate].
  destruct (amount e2) as [m2 | ?] eqn:Em2; [| discriminate].
  intros _. unfold compute_age_at. cbn [accumulate]. unfold accumulate_step.
  rewrite Ea1, Em1, Ea2, Em2. cbn [rbind].
  now rewrite (add_zero_swap m1 m2), (add_zero_swap (mul m1 a1) (mul m2 a2)).
Qed.

(** C7, as the code has it.  Reordering a group does not change
    whether the aggregation succeeds, and a group of at most two records
    has the same average age in either order.  (With three records the
    binary64 sums may round differently.) *)
Theorem compute_age_reorder (events events' : list event) (w : world) :
  Permutation events events' ->
  is_ok (compute_age events w) = is_ok (compute_age events' w) /\
  ((List.length events <= 2)%nat ->
   is_ok (compute_age events w) = true ->
   compute_age events w = compute_age events' w).
Proof.
  intros Hperm. rewrite !compute_age_run. split.
  - pose proof (compute_age_at_is_ok (wall w (reads w)) events) as H1.
    pose proof (compute_age_at_is_ok (wall w (reads w)) events') as H2.
    rewrite (forallb_permutation _ _ _ Hperm) in H1.
    destruct (compute_age_at _ events), (compute_age_at _ events');
      cbn in *; congruence.
  - intros Hlen Hok.
    destruct events as [| e1 [| e2 [| e3 rest]]]; cbn in Hlen; try lia.
    + apply Permutation_nil in Hperm. now subst.
    + apply Permutation_length_1_inv in Hperm. now subst.
    + apply Permutation_length_2_inv in Hperm as [-> | ->]; [reflexivity |].
      rewrite (compute_age_at_swap _ e1 e2); [reflexivity |].
      destruct (compute_age_at _ [e1; e2]); [reflexivity | discriminate Hok].
Qed.

End Aggregation.

(** ** Classification and grouping *)

Section Classification.

Context {RT : Runtime}.

Lemma key_eqb_eq (k1 k2 : asset_key) : key_eqb k1 k2 = true <-> k1 = k2.
Proof.
  destruct k1 as [[c1 s1] d1], k2 as [[c2 s2] d2]. unfold key_eqb.
  rewrite !andb_true_iff, !String.eqb_eq. split.
  - intros [[-> ->] ->]. reflexivity.
  - intros [= -> -> ->]. auto.
Qed.

Lemma key_eqb_refl (k : asset_key) : key_eqb k k = true.
Proof. now apply key_eqb_eq. Qed.

Lemma key_eqb_sym (k1 k2 : asset_key) : key_eqb k1 k2 = key_eqb k2 k1.
Proof.
  destruct (key_eqb k1 k2) eqn:E1, (key_eqb k2 k1) eqn:E2; try reflexivity.
  - apply key_eqb_eq in E1. subst. now rewrite key_eqb_refl in E2.
  - apply key_eqb_eq in E2. subst. now rewrite key_eqb_refl in E1.
Qed.

Lemma is_incoming_matches (address : string) (tx : event) (b : bool) :
  is_incoming address tx = Ok b -> b = recipient_matches address tx.
Proof.
  unfold is_incoming, recipient_matches.
  destruct (to tx) as [t |]; cbn; congruence.
Qed.

(** The comprehension of [main] is a filter. *)
Lemma incoming_filter (address : string) (txs : list event) :
  forall l, incoming address txs = Ok l ->
            l = filter (recipient_matches address) txs.
Proof.
  induction txs as [| tx txs IH]; intros l H; cbn in H.
  - now injection H as <-.
  - destruct (is_incoming address tx) as [b |] eqn:Eb; [| discriminate].
    apply is_incoming_matches in Eb. subst b.
    destruct (incoming address txs) as [l' |]; [| discriminate].
    cbn in H. injection H as <-. cbn [filter].
    rewrite <- (IH l' eq_refl).
    now destruct (recipient_matches address tx).
Qed.

(** *** One insertion *)

Lemma keys_setdefault_append (key : asset_key) (tx : event) (d : dict) :
  keys (setdefault_append key tx d) = add_key (keys d) key.
Proof.
  unfold keys, add_key. induction d as [| [k evs] d IH]; [reflexivity |].
  cbn [setdefault_append map fst existsb].
  rewrite (key_eqb_sym key k). destruct (key_eqb k key); [reflexivity |].
  cbn [orb map fst]. rewrite IH.
  now destruct (existsb (key_eqb key) (map fst d)).
Qed.

Lemma records_setdefault_append (key : asset_key) (tx : event) (d : dict) :
  Permutation (records (setdefault_append key tx d)) (records d ++ [tx]).
Proof.
  unfold records. induction d as [| [k evs] d IH]; [reflexivity |].
  cbn [setdefault_append]. destruct (key_eqb k key); cbn [map snd List.concat].
  - rewrite <- !app_assoc. apply Permutation_app_head.
    apply Permutation_app_comm.
  - rewrite <- app_assoc. now apply Permutation_app_head.
Qed.

Lemma keyed_setdefault_append (key : asset_key) (tx : event) (d : dict) :
  key_of tx = Ok key -> keyed d -> keyed (setdefault_append key tx d).
Proof.
  intros Hkey. induction d as [| [k evs] d IH]; intros Hd k' evs' tx' Hin Htx.
  - destruct Hin as [[= <- <-] | []]. destruct Htx as [<- | []]. exact Hkey.
  - cbn [setdefault_append] in Hin. destruct (key_eqb k key) eqn:Ek.
    + apply key_eqb_eq in Ek. subst k. destruct Hin as [[= <- <-] | Hin].
      * apply in_app_or in Htx as [Htx | [<- | []]]; [| exact Hkey].
        apply (Hd key evs); [now left | exact Htx].
      * apply (Hd k' evs'); [now right | exact Htx].
    + destruct Hin as [[= <- <-] | Hin].
      * apply (Hd k evs); [now left | exact Htx].
      * apply IH with (k := k') (evs := evs'); try assumption.
        intros k0 evs0 tx0 H0. apply (Hd k0 evs0). now right.
Qed.

(** *** The grouping loop *)

Lemma group_step_inv (address : string) (d0 d1 : dict) (tx : event) :
  group_step address d0 tx = Ok d1 ->
  (recipient_matches address tx = true /\
   exists key, key_of tx = Ok key /\ d1 = setdefault_append key tx d0) \/
  (recipient_matches address tx = false /\ d1 = d0).
Proof.
  unfold group_step. intros H.
  destruct (is_incoming address tx) as [b |] eqn:Eb; [| discriminate].
  apply is_incoming_matches in Eb. subst b. cbn [rbind] in H.
  destruct (recipient_matches address tx).
  - left. split; [reflexivity |].
    destruct (key_of tx) as [key |]; [| discriminate].
    cbn [rbind] in H. exists key. split; [reflexivity | congruence].
  - right. split; congruence.
Qed.

(** What the loop leaves in [by_token]: the incoming records, each
    under its key, the keys in the order of their first insertion. *)
Lemma group_tokens_inv (address : string) (txs : list event) :
  forall d0 d,
    group_tokens address txs d0 = Ok d ->
    Permutation (records d) (records d0 ++ filter (recipient_matches address) txs) /\
    (keyed d0 -> keyed d) /\
    exists ks,
      Forall2 (fun tx k => key_of tx = Ok k)
              (filter (recipient_matches address) txs) ks /\
      keys d = fold_left add_key ks (keys d0).
Proof.
  induction txs as [| tx txs IH]; intros d0 d H; cbn [group_tokens] in H.
  - injection H as <-. cbn [filter]. rewrite app_nil_r.
    split; [reflexivity |]. split; [auto |]. exists []. split; [constructor | reflexivity].
  - destruct (group_step address d0 tx) as [d1 |] eqn:Estep; [| discriminate].
    cbn [rbind] in H. destruct (IH d1 d H) as (Hperm & Hkeyed & ks & Hks & Hkeys).
    cbn [filter].
    apply group_step_inv in Estep as [(Hm & key & Hkey & ->) | (Hm & ->)];
      rewrite Hm.
    + split; [| split].
      * rewrite Hperm.
        rewrite (records_setdefault_append key tx d0), <- app_assoc.
        reflexivity.
      * intros Hd0. apply Hkeyed. now apply keyed_setdefault_append.
      * exists (key :: ks). split; [now constructor |].
        now rewrite Hkeys, keys_setdefault_append.
    + split; [exact Hperm |]. split; [exact Hkeyed |]. now exists ks.
Qed.

Lemma keyed_nil : keyed [].
Proof. intros k evs tx []. Qed.

Lemma in_records (d : dict) (tx : event) :
  In tx (records d) <-> exists k evs, In (k, evs) d /\ In tx evs.
Proof.
  unfold records. rewrite in_concat. split.
  - intros (evs & Hevs & Htx). apply in_map_iff in Hevs as ([k evs'] & <- & Hin).
    now exists k, evs'.
  - intros (k & evs & Hin & Htx). exists evs. split; [| exact Htx].
    apply in_map_iff. now exists (k, evs).
Qed.

(** C5.  Classification retains exactly the records whose recipient
    equals the address when letter case is ignored: the native
    transfers kept are the filter of the input by that test, the token
    groups hold the records passing the test and no others; a recipient
    written in capitals is retained for the address in small letters. *)
Theorem classification_retains_recipient
    (address : string) (eth_txs token_txs eth_in : list event) (by_token : dict) :
  incoming address eth_txs = Ok eth_in ->
  group_tokens address token_txs [] = Ok by_token ->
  eth_in = filter (recipient_matches address) eth_txs /\
  Permutation (records by_token) (filter (recipient_matches address) token_txs) /\
  (forall tx, recipient_matches address tx = true <->
              exists t, to tx = Some t /\ str_lower t = str_lower address) /\
  incoming (RT := ascii_runtime) Examples.query_address
    [Examples.elsewhere; Examples.shouting] = Ok [Examples.shouting].
Proof.
  intros Heth Htok. split; [now apply incoming_filter |]. split; [| split].
  - now destruct (group_tokens_inv address token_txs [] by_token Htok) as (Hperm & _).
  - intros tx. unfold recipient_matches. destruct (to tx) as [t |].
    + rewrite String.eqb_eq. split; [eauto |]. now intros (t' & [= <-] & H).
    + split; [discriminate |]. now intros (t' & [=] & _).
  - reflexivity.
Qed.


(** *** The keys, in the order first observed *)

Lemma filter_filter {A : Type} (f g : A -> bool) (l : list A) :
  filter f (filter g l) = filter (fun x => g x && f x) l.
Proof.
  induction l as [| x l IH]; [reflexivity |]. cbn [filter].
  destruct (g x); cbn [filter andb]; now rewrite IH.
Qed.

(** Inserting keys one by one into a dictionary that holds [ks]
    appends the new ones at their first occurrence. *)
Lemma fold_add_key (new : list asset_key) :
  forall ks,
    fold_left add_key new ks =
      ks ++ filter (fun k => negb (existsb (key_eqb k) ks)) (Spec.first_seen new).
Proof.
  induction new as [| k new IH]; intros ks; cbn [fold_left Spec.first_seen filter].
  - now rewrite app_nil_r.
  - rewrite IH. unfold add_key. destruct (existsb (key_eqb k) ks) eqn:Ek; cbn [negb].
    + f_equal. rewrite filter_filter. apply filter_ext. intros k'.
      destruct (key_eqb k k') eqn:E; [| reflexivity].
      apply key_eqb_eq in E. subst k'. now rewrite Ek.
    + rewrite <- app_assoc. cbn [app]. f_equal. f_equal.
      rewrite filter_filter. apply filter_ext. intros k'.
      rewrite existsb_app. cbn [existsb]. rewrite orb_false_r, negb_orb.
      now rewrite (key_eqb_sym k' k), andb_comm.
Qed.

Lemma fold_add_key_nil (new : list asset_key) :
  fold_left add_key new [] = Spec.first_seen new.
Proof.
  rewrite fold_add_key. cbn [app existsb negb].
  induction (Spec.first_seen new) as [| k l IH]; [reflexivity |].
  cbn [filter]. now rewrite IH.
Qed.

(** *** The rows *)

Lemma token_row_shape (item : asset_key * list event) (w w' : world) (row : list cell) :
  token_row item w = Ok (row, w') -> row_of (fst item) row.
Proof.
  destruct item as [[[c symbol] dec] evs]. unfold token_row, mbind, lift.
  destruct (compute_age evs w) as [[avg_age w1] |]; [| discriminate].
  destruct (sum_values evs 0) as [total |]; [| discriminate]. cbn [rbind].
  destruct (int_ dec) as [d |]; [| discriminate]. cbn [rbind].
  destruct (pow10 d) as [p |]; [| discriminate]. cbn [rbind].
  destruct (int_div total p) as [balance |]; [| discriminate]. cbn [rbind].
  intros [= <- _]. now exists balance, avg_age.
Qed.

Lemma token_rows_shape (items : dict) :
  forall rows w rows' w',
    token_rows items rows w = Ok (rows', w') ->
    exists added, rows' = rows ++ added /\ Forall2 row_of (keys items) added.
Proof.
  induction items as [| item items IH]; intros rows w rows' w' H;
    cbn [token_rows] in H.
  - injection H as <- _. exists []. split; [now rewrite app_nil_r | constructor].
  - unfold mbind in H.
    destruct (token_row item w) as [[row w1] |] eqn:Erow; [| discriminate].
    apply token_row_shape in Erow.
    destruct (IH _ _ _ _ H) as (added & -> & Hadded).
    exists (row :: added). split.
    + now rewrite <- app_assoc.
    + now constructor.
Qed.

(** The key the program forms is the triple of the three fields. *)
Lemma key_of_carries (tx : event) (k : asset_key) :
  key_of tx = Ok k <-> carries tx k.
Proof.
  destruct k as [[c s] d]. unfold key_of, carries.
  destruct (contractAddress tx), (tokenSymbol tx), (tokenDecimal tx);
    cbn [getitem rbind]; split;
    try discriminate; try (intros (H1 & H2 & H3); discriminate).
  - intros [= -> -> ->]. now repeat split.
  - intros ([= ->] & [= ->] & [= ->]). reflexivity.
Qed.

(** C8.  The table [main] builds holds, under the headings, the row of
    the native currency first and then one row per distinct key of the
    incoming token records, in the order in which the keys were first
    observed; the key of a record is the triple of its fields
    [contractAddress], [tokenSymbol] and [tokenDecimal], and the row of
    a key starts with its symbol. *)
Theorem report_rows
    (address : string) (eth_txs token_txs : list event)
    (w w' : world) (rows : list (list cell)) :
  main address eth_txs token_txs w = Ok (rows, w') ->
  exists eth_balance eth_age token_part observed,
    rows = header :: [Str "ETH"; Fmt 6 eth_balance; Fmt 1 eth_age] :: token_part /\
    Forall2 carries (filter (recipient_matches address) token_txs) observed /\
    Forall2 row_of (Spec.first_seen observed) token_part.
Proof.
  unfold main, mbind, lift. intros H.
  destruct (incoming address eth_txs) as [eth_in |]; [| discriminate].
  destruct (compute_age eth_in w) as [[eth_age w1] |]; [| discriminate].
  destruct (group_tokens address token_txs []) as [by_token |] eqn:Egrp;
    [| discriminate].
  destruct (sum_values eth_in 0) as [total |]; [| discriminate]. cbn [rbind] in H.
  destruct (PyFloat.int_truediv total (10 ^ 18)) as [eth_balance |];
    [| discriminate].
  cbn [rbind] in H.
  apply token_rows_shape in H as (token_part & -> & Hrows).
  destruct (group_tokens_inv address token_txs [] by_token Egrp)
    as (_ & _ & observed & Hobs & Hkeys).
  exists eth_balance, eth_age, token_part, observed.
  split; [reflexivity |]. split.
  - eapply Forall2_impl; [| exact Hobs]. intros tx k. apply key_of_carries.
  - change (keys []) with (@nil asset_key) in Hkeys.
    now rewrite Hkeys, fold_add_key_nil in Hrows.
Qed.

End Classification.

(** ** The properties at concrete groups *)

Section Runs.

Import PyFloat Examples.

#[local] Existing Instance ascii_runtime.

Lemma w0_valid : Spec.valid_now (wall w0 (reads w0)).
Proof. vm_compute. split; discriminate. Qed.

Ltac timestamp_ok :=
  eexists _, _; split; [reflexivity | split; [reflexivity | vm_compute; split; discriminate]].

Ltac reads_ok :=
  split; [eexists; split; reflexivity | split; [eexists; split; reflexivity | reflexivity]].

Ltac range_ok :=
  split; [vm_compute; split; discriminate | split; [vm_compute; discriminate | vm_compute; reflexivity]].

Ltac all_read :=
  repeat (first [apply Forall2_nil | apply Forall2_cons; [reads_ok |]]).

Ltac all_in_range :=
  repeat (first [apply Forall_nil | apply Forall_cons; [range_ok |]]).

Ltac all_timestamps :=
  repeat (first [apply Forall_nil | apply Forall_cons; [timestamp_ok |]]).

Ltac all_recorded :=
  repeat (first [apply Forall2_nil | apply Forall2_cons; [reads_ok |]]).

Lemma compute_age_zero_total_witness :
  compute_age [zero_value] w0 = Ok (zero, tick w0) /\
  compute_age [hundred_ten_days; tok_six] w0 =
    Ok (div (Spec.weightedAgeSum (wall w0 (reads w0)) [r100; MoreExamples.r_six])
            (Spec.totalAmount [r100; MoreExamples.r_six]), tick w0) /\
  SFltb zero (Spec.totalAmount [r100; MoreExamples.r_six]) = true.
Proof.
  split; [| split; [| reflexivity]].
  - apply (compute_age_zero_total [zero_value] [MoreExamples.r_zero] w0 zero).
    + exact w0_valid.
    + all_timestamps.
    + reflexivity.
    + reflexivity.
  - apply (compute_age_zero_total
             [hundred_ten_days; tok_six] [r100; MoreExamples.r_six] w0
             (Spec.totalAmount [r100; MoreExamples.r_six])).
    + exact w0_valid.
    + all_timestamps.
    + reflexivity.
    + all_recorded.
    + all_in_range.
    + reflexivity.
Defined.

Lemma compute_age_weighted_average_witness :
  accumulate (wall w0 (reads w0)) [hundred_ten_days; tok_six] (zero, zero) =
    Ok (Spec.totalAmount [r100; MoreExamples.r_six],
        Spec.weightedAgeSum (wall w0 (reads w0)) [r100; MoreExamples.r_six]) /\
  Spec.amount MoreExamples.r_six = of_Z 7.
Proof.
  split; [| reflexivity].
  apply (compute_age_weighted_average
           [hundred_ten_days; tok_six] [r100; MoreExamples.r_six] w0).
  - exact w0_valid.
  - all_recorded.
  - all_in_range.
Defined.


Lemma compute_age_total_witness :
  exists x, compute_age [hundred_ten_days; three_hundred_two_days] w0 = Ok (x, tick w0).
Proof.
  apply (compute_age_total
           [hundred_ten_days; three_hundred_two_days] [r100; r300] w0).
  - exact w0_valid.
  - all_read.
  - all_in_range.
Defined.

Lemma compute_age_clock_witness :
  outcome (compute_age [hundred_ten_days] w0) =
    outcome (compute_age [hundred_ten_days] frozen).
Proof.
  apply (compute_age_clock [hundred_ten_days] w0 frozen). reflexivity.
Defined.

Lemma nonpositive_amount_included_witness :
  exists x,
    compute_age ([hundred_ten_days] ++ minus_five :: [three_hundred_two_days]) w0 =
      Ok (x, tick w0).
Proof.
  apply (nonpositive_amount_included
           [hundred_ten_days] [three_hundred_two_days] minus_five
           [r100] [r300] r_minus_five w0).
  - exact w0_valid.
  - all_read.
  - reads_ok.
  - all_read.
  - all_in_range.
  - vm_compute. discriminate.
Defined.

Lemma compute_age_reorder_witness :
  is_ok (compute_age [hundred_ten_days; three_hundred_two_days] w0) =
    is_ok (compute_age [three_hundred_two_days; hundred_ten_days] w0).
Proof.
  apply (compute_age_reorder
           [hundred_ten_days; three_hundred_two_days]
           [three_hundred_two_days; hundred_ten_days] w0).
  apply perm_swap.
Defined.

Lemma classification_retains_recipient_witness :
  [shouting] = filter (recipient_matches query_address) [elsewhere; shouting] /\
  Permutation
    (records [(("0xc1", "AAA", "18"), [tok_a; tok_b])])
    (filter (recipient_matches query_address) [tok_a; tok_other; tok_b]).
Proof.
  pose proof (classification_retains_recipient
                query_address [elsewhere; shouting] [tok_a; tok_other; tok_b]
                [shouting] [(("0xc1", "AAA", "18"), [tok_a; tok_b])]
                eq_refl eq_refl) as (H1 & H2 & _).
  exact (conj H1 H2).
Defined.


Lemma report_rows_witness :
  exists rows eth_balance eth_age token_part observed,
    rows = header :: [Str "ETH"; Fmt 6 eth_balance; Fmt 1 eth_age] :: token_part /\
    Forall2 carries
            (filter (recipient_matches query_address)
                    [tok_a; tok_other; tok_six; tok_b]) observed /\
    Forall2 row_of (Spec.first_seen observed) token_part.
Proof.
  eexists.
  eapply (report_rows query_address [elsewhere; shouting]
            [tok_a; tok_other; tok_six; tok_b] w0).
  vm_compute. reflexivity.
Defined.

(** *** Where the code departs from the specification *)

(** C3.  The same group aggregated under two readings of the clock:
    ten days, then eleven. *)
Lemma compute_age_reads_clock :
  outcome (compute_age [hundred_ten_days] w0) = Ok (of_Z 10) /\
  outcome (compute_age [hundred_ten_days] (clock_from 20001)) = Ok (of_Z 11) /\
  outcome (compute_age [hundred_ten_days] w0) <>
    outcome (compute_age [hundred_ten_days] (clock_from 20001)).
Proof. repeat split; try reflexivity. vm_compute. discriminate. Qed.

(** C4.  A raw amount of [-5] is aggregated, alone and among others. *)
Lemma negative_amount_accepted :
  outcome (compute_age [minus_five] w0) = Ok (of_Z 10) /\
  outcome (compute_age [minus_five; hundred_ten_days; three_hundred_two_days] w0) =
    Ok four.
Proof. split; reflexivity. Qed.

(** C7.  Three receipts of one token, [10^16] units and twice one unit,
    all ten days old: the average is [10.0] when the large one comes
    last and the next float above it when it comes first. *)
Lemma reordering_changes_average :
  Permutation [big; one_a; one_b] [one_a; one_b; big] /\
  outcome (compute_age [one_a; one_b; big] w0) = Ok (of_Z 10) /\
  outcome (compute_age [big; one_a; one_b] w0) =
    Ok (S754_finite false 5629499534213122 (-49)) /\
  outcome (compute_age [big; one_a; one_b] w0) <>
    outcome (compute_age [one_a; one_b; big] w0).
Proof.
  split; [apply (Permutation_cons_append [one_a; one_b] big) |].
  repeat split; try reflexivity. vm_compute. discriminate.
Qed.

(** C10.  Records whose fields are all integers on which [compute_age]
    raises: a timestamp in the year 10000, and a scale [10 ** -400],
    which is [0.0]. *)
Lemma compute_age_raises :
  (py_int "253402300800" = Some 253402300800 /\
   py_int "1" = Some 1 /\
   decimals year_10000 = Ok 18 /\
   compute_age [year_10000] w0 = Raise DatetimeRangeError) /\
  (py_int "5" = Some 5 /\
   decimals tiny_scale = Ok (-400) /\
   compute_age [tiny_scale] w0 = Raise ZeroDivisionError).
Proof. repeat split; reflexivity. Qed.

End Runs.

(** ** Signs *)

Section Signs.

Import PyFloat.

(** Rounding a mantissa that is not negative keeps the sign it is given. *)
Lemma binary_round_aux_sign (s : bool) (m e : Z) (l : location) :
  0 <= m ->
  match binary_round_aux prec emax s m e l with
  | S754_nan => False
  | S754_zero s' | S754_infinity s' | S754_finite s' _ _ => s' = s
  end.
Proof.
  intros Hm. unfold binary_round_aux.
  pose proof (shr_fexp_digits m e l Hm) as H1. cbv zeta in H1.
  destruct (shr_fexp prec emax m e l) as [mrs1 e1].
  simpl fst in H1. destruct H1 as (P1 & _ & _).
  pose proof (round_nearest_even_digits (shr_m mrs1) (loc_of_shr_record mrs1) P1)
    as [P2 _].
  pose proof (shr_fexp_digits _ e1 loc_Exact P2) as H3. cbv zeta in H3.
  destruct (shr_fexp prec emax _ e1 loc_Exact) as [mrs2 e2].
  simpl fst in H3. destruct H3 as (P3 & _ & _).
  destruct (shr_m mrs2) as [| p | p]; [reflexivity | | lia].
  now destruct (e2 <=? emax - prec).
Qed.

Lemma binary_round_aux_positive (m e : Z) (l : location) :
  0 <= m -> positive_or_zero (binary_round_aux prec emax false m e l) = true.
Proof.
  intros Hm. pose proof (binary_round_aux_sign false m e l Hm) as H.
  destruct (binary_round_aux prec emax false m e l); cbn; subst; tauto.
Qed.

Lemma positive_sign_clear (x : float) :
  positive_or_zero x = true -> sign_clear x = true.
Proof. now destruct x. Qed.

Lemma add_positive (x y : float) :
  positive_or_zero x = true -> positive_or_zero y = true ->
  positive_or_zero (add x y) = true.
Proof.
  destruct x as [[] | [] | | [] mx ex], y as [[] | [] | | [] my ey];
    try discriminate; try reflexivity.
  intros _ _. unfold add, SFadd, cond_Zopp, binary_normalize.
  cbn [Z.add]. unfold binary_round.
  destruct (shl_align _ _ _) as [mz ez].
  apply binary_round_aux_positive. lia.
Qed.

Lemma mul_sign_clear (x y : float) :
  sign_clear x = true -> sign_clear y = true -> sign_clear (mul x y) = true.
Proof.
  destruct x as [[] | [] | | [] mx ex], y as [[] | [] | | [] my ey];
    try discriminate; try reflexivity.
  intros _ _. unfold mul, SFmul. cbn [xorb].
  apply positive_sign_clear, binary_round_aux_positive. lia.
Qed.

Lemma add_sign_clear (x y : float) :
  sign_clear x = true -> sign_clear y = true -> sign_clear (add x y) = true.
Proof.
  destruct x as [[] | [] | | [] mx ex], y as [[] | [] | | [] my ey];
    try discriminate; try reflexivity.
  intros _ _. apply positive_sign_clear. now apply add_positive.
Qed.

Lemma div_core_nonneg (m1 m2 : positive) (e1 e2 : Z) :
  0 <= fst (fst (SFdiv_core_binary prec emax (Z.pos m1) e1 (Z.pos m2) e2)).
Proof.
  unfold SFdiv_core_binary.
  set (m' := match _ with 0 => _ | Z.pos _ => _ | Z.neg _ => _ end).
  assert (Hm' : 0 <= m').
  { subst m'. destruct (e1 - e2 - _) as [| p | p]; try lia.
    apply Z.shiftl_nonneg. lia. }
  destruct (Z.div_eucl m' (Z.pos m2)) as [q r] eqn:Ediv. cbn [fst].
  assert (Hq : q = m' / Z.pos m2) by (unfold Z.div; now rewrite Ediv).
  rewrite Hq. apply Z.div_pos; lia.
Qed.

Lemma div_positive_finite (mx my : positive) (ex ey : Z) :
  positive_or_zero (div (S754_finite false mx ex) (S754_finite false my ey)) = true.
Proof.
  unfold div, SFdiv. pose proof (div_core_nonneg mx my ex ey) as H.
  destruct (SFdiv_core_binary prec emax (Z.pos mx) ex (Z.pos my) ey) as [[q e] l].
  cbn [fst] in H. cbn [xorb]. now apply binary_round_aux_positive.
Qed.

Lemma div_sign_clear (x y : float) :
  sign_clear x = true -> sign_clear y = true -> sign_clear (div x y) = true.
Proof.
  destruct x as [[] | [] | | [] mx ex], y as [[] | [] | | [] my ey];
    try discriminate; try reflexivity.
  intros _ _. apply positive_sign_clear, div_positive_finite.
Qed.

(** The quotient of a natural number by a positive one. *)
Lemma quotient_positive (a b : Z) :
  0 <= a -> 0 < b -> positive_or_zero (quotient a b) = true.
Proof.
  intros Ha Hb. unfold quotient.
  destruct a as [| pa | pa]; [| | lia].
  - now destruct b.
  - destruct b as [| pb | pb]; try lia. apply div_positive_finite.
Qed.

Lemma sign_clear_not_below_zero (x : float) :
  sign_clear x = true -> SFltb x zero = false.
Proof. now destruct x as [[] | [] | | [] m e]. Qed.

Lemma fold_add_sign_clear (l : list float) :
  forall acc,
    sign_clear acc = true -> Forall (fun x => sign_clear x = true) l ->
    sign_clear (fold_left add l acc) = true.
Proof.
  induction l as [| x l IH]; intros acc Hacc Hl; [exact Hacc |].
  inversion Hl; subst. cbn [fold_left]. apply IH; [now apply add_sign_clear | assumption].
Qed.

Lemma fold_add_positive (l : list float) :
  forall acc,
    positive_or_zero acc = true -> Forall (fun x => positive_or_zero x = true) l ->
    positive_or_zero (fold_left add l acc) = true.
Proof.
  induction l as [| x l IH]; intros acc Hacc Hl; [exact Hacc |].
  inversion Hl; subst. cbn [fold_left]. apply IH; [now apply add_positive | assumption].
Qed.

End Signs.

(** ** More on the aggregation *)

Section AggregationFacts.

Context {RT : Runtime}.

Import PyFloat.

Lemma seconds_per_day_positive : positive_or_zero seconds_per_day = true.
Proof. reflexivity. Qed.

Lemma spec_amount_positive (r : Spec.TransferRecord) :
  0 <= Spec.rawAmount r -> 0 <= Spec.decimals r ->
  positive_or_zero (Spec.amount r) = true.
Proof.
  intros Hv Hd. apply quotient_positive; [exact Hv |].
  apply Z.pow_pos_nonneg; lia.
Qed.

Lemma spec_age_sign_clear (now : Z) (r : Spec.TransferRecord) :
  Spec.timestamp r * 1000000 <= now ->
  sign_clear (Spec.ageDays now r) = true.
Proof.
  intros Ht. unfold Spec.ageDays. apply div_sign_clear.
  - apply positive_sign_clear, quotient_positive; [lia | reflexivity].
  - reflexivity.
Qed.

(** X1.  Amounts that are not negative, received no later than the clock
    reading, never give a negative average age. *)
Theorem compute_age_not_negative
    (events : list event) (group : list Spec.TransferRecord) (w : world) :
  Spec.valid_now (wall w (reads w)) ->
  Forall2 reads_as events group ->
  Forall Spec.in_range group ->
  Forall (received_by (wall w (reads w))) group ->
  exists x, compute_age events w = Ok (x, tick w) /\ SFltb x zero = false.
Proof.
  intros Hnow Hrd Hrange Hrec.
  rewrite compute_age_run. unfold compute_age_at.
  rewrite (accumulate_sums _ events group Hnow Hrd Hrange). cbn [rbind].
  rewrite average_ok. cbn [fst snd]. eexists. split; [reflexivity |].
  destruct (is_zero _); [reflexivity |].
  apply sign_clear_not_below_zero, div_sign_clear.
  - apply fold_add_sign_clear; [reflexivity |].
    apply Forall_map. rewrite Forall_forall in *. intros r Hr.
    destruct (Hrec r Hr) as [Hv Ht]. destruct (Hrange r Hr) as (_ & Hd & _).
    apply mul_sign_clear.
    + now apply positive_sign_clear, spec_amount_positive.
    + now apply spec_age_sign_clear.
  - apply fold_add_sign_clear; [reflexivity |].
    apply Forall_map. rewrite Forall_forall in *. intros r Hr.
    destruct (Hrec r Hr) as [Hv Ht]. destruct (Hrange r Hr) as (_ & Hd & _).
    now apply positive_sign_clear, spec_amount_positive.
Qed.

Lemma mul_zero_r (x : float) :
  positive_or_zero x = true -> is_infinite x = false -> mul x zero = zero.
Proof. now destruct x as [[] | [] | | [] m e]. Qed.

Lemma div_zero_l (y : float) :
  positive_or_zero y = true -> is_zero y = false -> div zero y = zero.
Proof. now destruct y as [[] | [] | | [] m e]. Qed.

Lemma fold_add_zeros (l : list float) :
  Forall (fun x => x = zero) l -> fold_left add l zero = zero.
Proof.
  induction 1 as [| x l -> _ IH]; [reflexivity |]. exact IH.
Qed.

Lemma age_of_now (now : Z) (r : Spec.TransferRecord) :
  Spec.timestamp r * 1000000 = now -> Spec.ageDays now r = zero.
Proof.
  intros <-. unfold Spec.ageDays. now rewrite Z.sub_diag.
Qed.

(** X2.  A group received at the very instant of the clock reading has
    average age exactly [0.0], whatever its (non-negative) amounts. *)
Theorem compute_age_of_now
    (events : list event) (group : list Spec.TransferRecord) (w : world) :
  Spec.valid_now (wall w (reads w)) ->
  Forall2 reads_as events group ->
  Forall Spec.in_range group ->
  Forall (fun r => 0 <= Spec.rawAmount r /\
                   Spec.timestamp r * 1000000 = wall w (reads w)) group ->
  compute_age events w = Ok (zero, tick w).
Proof.
  intros Hnow Hrd Hrange Hrec.
  rewrite compute_age_run. unfold compute_age_at.
  rewrite (accumulate_sums _ events group Hnow Hrd Hrange). cbn [rbind].
  rewrite average_ok. cbn [fst snd].
  rewrite (fold_add_zeros
             (map (fun r => mul (Spec.amount r) (Spec.ageDays (wall w (reads w)) r)) group)).
  - destruct (is_zero _) eqn:Ez; [reflexivity |].
    rewrite div_zero_l; [reflexivity | | exact Ez].
    apply fold_add_positive; [reflexivity |].
    apply Forall_map. rewrite Forall_forall in *. intros r Hr.
    destruct (Hrec r Hr) as [Hv _]. destruct (Hrange r Hr) as (_ & Hd & _).
    now apply spec_amount_positive.
  - apply Forall_map. rewrite Forall_forall in *. intros r Hr.
    destruct (Hrec r Hr) as [Hv Ht]. destruct (Hrange r Hr) as (_ & Hd & Hb).
    rewrite (age_of_now _ r Ht). apply mul_zero_r.
    + now apply spec_amount_positive.
    + apply quotient_finite.
      * apply Z.pow_nonzero; lia.
      * rewrite (Z.abs_eq (10 ^ _)); [exact Hb |]. apply Z.pow_nonneg. lia.
Qed.

Lemma record_error_none (now : Z) (ev : event) :
  processable now ev = true <-> record_error now ev = None.
Proof.
  unfold processable, record_error.
  destruct (age_days now ev), (amount ev); cbn; split; intros H;
    first [reflexivity | discriminate H].
Qed.

Lemma accumulate_step_raises (now : Z) (ev : event) (e : exn) :
  record_error now ev = Some e ->
  forall acc, accumulate_step now acc ev = Raise e.
Proof.
  unfold record_error, accumulate_step. intros H [total_amount total_age].
  destruct (age_days now ev); cbn [rbind]; [| congruence].
  destruct (amount ev); cbn [rbind]; congruence.
Qed.

(** X3.  A group fails as a whole, with the error of its first record
    that cannot be processed, whatever follows that record. *)
Theorem compute_age_first_error
    (pre post : list event) (ev : event) (e : exn) (w : world) :
  forallb (processable (wall w (reads w))) pre = true ->
  record_error (wall w (reads w)) ev = Some e ->
  compute_age (pre ++ ev :: post) w = Raise e.
Proof.
  intros Hpre Hev. rewrite compute_age_run. unfold compute_age_at.
  rewrite accumulate_app.
  pose proof (accumulate_is_ok (wall w (reads w)) pre (zero, zero)) as Hok.
  rewrite Hpre in Hok.
  destruct (accumulate _ pre (zero, zero)) as [acc |]; [| discriminate].
  cbn [rbind accumulate]. now rewrite (accumulate_step_raises _ ev e Hev).
Qed.

(** X4.  A raw amount that fits a 256-bit word, scaled by a power of ten
    with a natural exponent, always has an amount: the division cannot
    overflow, and the amount is not negative. *)
Theorem amount_of_word (ev : event) (s : string) (v d : Z) :
  value ev = Some s -> py_int s = Some v ->
  decimals ev = Ok d -> 0 <= d ->
  0 <= v < 2 ^ 256 ->
  amount ev = Ok (quotient v (10 ^ d)) /\
  positive_or_zero (quotient v (10 ^ d)) = true /\
  is_infinite (quotient v (10 ^ d)) = false.
Proof.
  intros Hs Hv Hd Hd0 [Hv0 Hv1].
  assert (Hp : 1 <= 10 ^ d)
    by (pose proof (Z.pow_pos_nonneg 10 d ltac:(lia) Hd0); lia).
  assert (Hw : 2 ^ 256 <= 2 ^ 1023) by (apply Z.pow_le_mono_r; lia).
  assert (Hb : Z.abs v < 2 ^ 1023 * 10 ^ d).
  { rewrite Z.abs_eq by lia.
    set (W := 2 ^ 256) in *. set (B := 2 ^ 1023) in *. clearbody W B. nia. }
  split; [now apply (amount_ok ev s) |]. split.
  - apply quotient_positive; lia.
  - apply quotient_finite; [lia |]. now rewrite (Z.abs_eq (10 ^ d)) by lia.
Qed.

End AggregationFacts.

(** ** More on classification and the report *)

Section ClassificationFacts.

Context {RT : Runtime}.

Lemma is_incoming_ok (address : string) (tx : event) :
  to tx <> None -> is_incoming address tx = Ok (recipient_matches address tx).
Proof.
  unfold is_incoming, recipient_matches. now destruct (to tx).
Qed.

Lemma is_incoming_raise (address : string) (tx : event) :
  to tx = None -> is_incoming address tx = Raise (KeyError "to").
Proof. unfold is_incoming. now intros ->. Qed.

(** X5.  The comprehension that keeps the incoming native transfers
    fails exactly when some record, incoming or not, has no [to] field,
    and then with [KeyError "to"]; otherwise it is the filter. *)
Theorem incoming_key_error (address : string) (txs : list event) :
  (Exists (fun tx => to tx = None) txs ->
   incoming address txs = Raise (KeyError "to")) /\
  (Forall (fun tx => to tx <> None) txs ->
   incoming address txs = Ok (filter (recipient_matches address) txs)) /\
  (forall e, incoming address txs = Raise e ->
             e = KeyError "to" /\ Exists (fun tx => to tx = None) txs).
Proof.
  induction txs as [| tx txs (IH1 & IH2 & IH3)].
  - split; [intros H; inversion H |]. split; [reflexivity | discriminate].
  - cbn [incoming filter]. destruct (to tx) as [t |] eqn:Eto.
    + rewrite is_incoming_ok by congruence. cbn [rbind]. split; [| split].
      * intros H. inversion H as [? ? H0 | ? ? H0]; subst; [congruence |].
        now rewrite (IH1 H0).
      * intros H. inversion H; subst. now rewrite IH2.
      * intros e H. destruct (incoming address txs); [discriminate |].
        injection H as <-. destruct (IH3 _ eq_refl) as [-> Hex].
        split; [reflexivity | now right].
    + rewrite (is_incoming_raise _ _ Eto). cbn [rbind]. split; [| split].
      * reflexivity.
      * intros H. inversion H; subst. congruence.
      * intros e [= <-]. split; [reflexivity | now left].
Qed.

Lemma filter_idempotent {A : Type} (f : A -> bool) (l : list A) :
  filter f (filter f l) = filter f l.
Proof.
  induction l as [| x l IH]; [reflexivity |]. cbn [filter].
  destruct (f x) eqn:E; [| exact IH]. cbn [filter]. now rewrite E, IH.
Qed.

(** X6.  Classification is idempotent: the records kept are kept again,
    unchanged, when classified for the same address. *)
Theorem incoming_idempotent (address : string) (txs l : list event) :
  incoming address txs = Ok l -> incoming address l = Ok l.
Proof.
  intros H. apply incoming_filter in H. subst l.
  destruct (incoming_key_error address (filter (recipient_matches address) txs))
    as (_ & Hok & _).
  rewrite Hok.
  - now rewrite filter_idempotent.
  - apply Forall_forall. intros tx Htx. apply filter_In in Htx as [_ Hm].
    unfold recipient_matches in Hm. now destruct (to tx).
Qed.

Lemma group_step_ok (address : string) (d : dict) (tx : event) :
  is_ok (group_step address d tx) = true <-> classifiable address tx.
Proof.
  unfold group_step, classifiable, is_incoming, recipient_matches, key_of.
  destruct (to tx) as [t |]; cbn [getitem rbind is_ok].
  - destruct (String.eqb (str_lower t) (str_lower address)).
    + destruct (contractAddress tx), (tokenSymbol tx), (tokenDecimal tx);
        cbn [getitem rbind is_ok]; split; try discriminate;
        try (intros _; split; [discriminate | intros _; repeat split; discriminate]);
        intros [_ H]; destruct (H eq_refl) as (H1 & H2 & H3); congruence.
    + cbn [is_ok]. split; [| reflexivity]. intros _.
      split; [discriminate | discriminate].
  - split; [discriminate |]. intros [H _]. congruence.
Qed.

Lemma group_step_raise (address : string) (d : dict) (tx : event) (e : exn) :
  group_step address d tx = Raise e ->
  exists key,
    e = KeyError key /\
    In key ["to"; "contractAddress"; "tokenSymbol"; "tokenDecimal"].
Proof.
  unfold group_step, is_incoming, key_of.
  destruct (to tx) as [t |]; cbn [getitem rbind].
  - destruct (String.eqb (str_lower t) (str_lower address)); [| discriminate].
    destruct (contractAddress tx); cbn [getitem rbind];
      [| intros [= <-]; eexists; split; [reflexivity | cbn; auto]].
    destruct (tokenSymbol tx); cbn [getitem rbind];
      [| intros [= <-]; eexists; split; [reflexivity | cbn; auto]].
    destruct (tokenDecimal tx); cbn [getitem rbind];
      [discriminate | intros [= <-]; eexists; split; [reflexivity | cbn; auto]].
  - intros [= <-]. eexists; split; [reflexivity | cbn; auto].
Qed.

(** X7.  The grouping loop succeeds exactly when every record has a
    recipient and every incoming record has the three fields of the key;
    the only errors it raises are [KeyError]s of these four fields. *)
Theorem group_tokens_key_errors (address : string) (txs : list event) (d : dict) :
  (is_ok (group_tokens address txs d) = true <-> Forall (classifiable address) txs) /\
  (forall e, group_tokens address txs d = Raise e ->
             exists key,
               e = KeyError key /\
               In key ["to"; "contractAddress"; "tokenSymbol"; "tokenDecimal"]).
Proof.
  revert d. induction txs as [| tx txs IH]; intros d; cbn [group_tokens].
  - split; [| discriminate]. split; [constructor | reflexivity].
  - pose proof (group_step_ok address d tx) as Hstep.
    pose proof (group_step_raise address d tx) as Hraise.
    destruct (group_step address d tx) as [d1 | e1]; cbn [rbind].
    + destruct (IH d1) as [IHok IHraise]. split; [| exact IHraise].
      rewrite IHok. split.
      * intros H. constructor; [now apply Hstep | exact H].
      * intros H. now inversion H.
    + split.
      * split; [discriminate |]. intros H. inversion H; subst.
        now apply Hstep.
      * intros e [= <-]. now apply Hraise.
Qed.

(** *** The dictionary of groups *)

Lemma get_setdefault_append (key k : asset_key) (tx : event) (d : dict) :
  get (setdefault_append key tx d) k =
    get d k ++ (if key_eqb key k then [tx] else []).
Proof.
  induction d as [| [k0 evs] d IH]; cbn [setdefault_append get].
  - now destruct (key_eqb key k).
  - destruct (key_eqb k0 key) eqn:E0; cbn [get].
    + apply key_eqb_eq in E0. subst k0.
      destruct (key_eqb key k); [reflexivity | now rewrite app_nil_r].
    + destruct (key_eqb k0 k) eqn:E1; [| exact IH].
      apply key_eqb_eq in E1. subst k0. rewrite (key_eqb_sym key k), E0.
      now rewrite app_nil_r.
Qed.

Lemma has_key_of (tx : event) (key k : asset_key) :
  key_of tx = Ok key -> has_key k tx = key_eqb key k.
Proof. unfold has_key. now intros ->. Qed.

(** Under every key the loop leaves the incoming records of that key,
    in the order of the input. *)
Lemma group_tokens_get (address : string) (txs : list event) :
  forall d0 d k,
    group_tokens address txs d0 = Ok d ->
    get d k = get d0 k ++ filter (has_key k) (filter (recipient_matches address) txs).
Proof.
  induction txs as [| tx txs IH]; intros d0 d k H; cbn [group_tokens] in H.
  - injection H as <-. cbn [filter]. now rewrite app_nil_r.
  - destruct (group_step address d0 tx) as [d1 |] eqn:Estep; [| discriminate].
    cbn [rbind] in H. rewrite (IH d1 d k H). cbn [filter].
    apply group_step_inv in Estep as [(Hm & key & Hkey & ->) | (Hm & ->)];
      rewrite Hm; [| reflexivity].
    cbn [filter]. rewrite get_setdefault_append, (has_key_of tx key k Hkey).
    rewrite <- app_assoc. now destruct (key_eqb key k).
Qed.

Lemma first_seen_subset (ks : list asset_key) (k : asset_key) :
  In k (Spec.first_seen ks) -> In k ks.
Proof.
  induction ks as [| k0 ks IH]; [easy |]. cbn [Spec.first_seen].
  intros [-> | H]; [now left |]. right. apply IH.
  now apply filter_In in H.
Qed.

Lemma first_seen_nodup (ks : list asset_key) : NoDup (Spec.first_seen ks).
Proof.
  induction ks as [| k ks IH]; cbn [Spec.first_seen]; constructor.
  - intros H. apply filter_In in H as [_ H]. now rewrite key_eqb_refl in H.
  - now apply NoDup_filter.
Qed.

Lemma get_in (d : dict) (k : asset_key) (evs : list event) :
  NoDup (keys d) -> In (k, evs) d -> get d k = evs.
Proof.
  unfold keys. induction d as [| [k0 evs0] d IH]; [easy |].
  cbn [map fst get]. intros Hnd [[= -> ->] | Hin].
  - now rewrite key_eqb_refl.
  - inversion Hnd as [| ? ? Hnotin Hnd']; subst.
    destruct (key_eqb k0 k) eqn:E; [| now apply IH].
    apply key_eqb_eq in E. subst k0. exfalso. apply Hnotin.
    apply in_map_iff. now exists (k, evs).
Qed.

Lemma group_tokens_keys_nodup (address : string) (txs : list event) (d : dict) :
  group_tokens address txs [] = Ok d -> NoDup (keys d).
Proof.
  intros H. destruct (group_tokens_inv address txs [] d H) as (_ & _ & ks & _ & Hk).
  change (keys []) with (@nil asset_key) in Hk.
  rewrite Hk, fold_add_key_nil. apply first_seen_nodup.
Qed.

Lemma first_seen_complete (ks : list asset_key) (k : asset_key) :
  In k ks -> In k (Spec.first_seen ks).
Proof.
  induction ks as [| k0 ks IH]; [easy |]. cbn [Spec.first_seen]. intros Hin.
  destruct (key_eqb k0 k) eqn:E.
  - apply key_eqb_eq in E. now left.
  - right. apply filter_In. split; [| now rewrite E].
    destruct Hin as [-> | Hin]; [now rewrite key_eqb_refl in E | now apply IH].
Qed.

Lemma observed_nonempty (inc : list event) (ks : list asset_key) :
  Forall2 (fun tx k => key_of tx = Ok k) inc ks ->
  forall k, In k ks -> filter (has_key k) inc <> [].
Proof.
  induction 1 as [| tx k' inc ks Htx _ IH]; intros k Hin; [easy |].
  cbn [filter]. destruct Hin as [-> | Hin].
  - now rewrite (has_key_of tx k k Htx), key_eqb_refl.
  - destruct (has_key k tx); [discriminate | now apply IH].
Qed.

Lemma unobserved_empty (inc : list event) (ks : list asset_key) :
  Forall2 (fun tx k => key_of tx = Ok k) inc ks ->
  forall k, ~ In k ks -> filter (has_key k) inc = [].
Proof.
  induction 1 as [| tx k' inc ks Htx _ IH]; intros k Hnot; [easy |].
  cbn [filter]. rewrite (has_key_of tx k' k Htx).
  destruct (key_eqb k' k) eqn:E.
  - apply key_eqb_eq in E. subst k'. exfalso. apply Hnot. now left.
  - apply IH. intros Hin. apply Hnot. now right.
Qed.

(** X8.  The dictionary built by the grouping loop has one entry per
    key and no empty group, and every group lists the incoming records
    of its key in the order of the input. *)
Theorem groups_in_input_order (address : string) (txs : list event) (d : dict) :
  group_tokens address txs [] = Ok d ->
  NoDup (keys d) /\
  (forall k evs,
      In (k, evs) d ->
      evs = filter (has_key k) (filter (recipient_matches address) txs) /\
      evs <> []) /\
  (forall k, ~ In k (keys d) ->
             filter (has_key k) (filter (recipient_matches address) txs) = []).
Proof.
  intros H. pose proof (group_tokens_keys_nodup address txs d H) as Hnd.
  destruct (group_tokens_inv address txs [] d H) as (_ & _ & ks & Hks & Hk).
  change (keys []) with (@nil asset_key) in Hk. rewrite fold_add_key_nil in Hk.
  assert (Hget : forall k, get d k =
                           filter (has_key k) (filter (recipient_matches address) txs))
    by (intros k; now rewrite (group_tokens_get address txs [] d k H)).
  split; [exact Hnd |]. split.
  - intros k evs Hin. rewrite <- (Hget k), (get_in d k evs Hnd Hin).
    split; [reflexivity |].
    rewrite <- (get_in d k evs Hnd Hin), Hget.
    apply (observed_nonempty _ ks Hks).
    apply first_seen_subset. rewrite <- Hk. apply in_map_iff. now exists (k, evs).
  - intros k Hnot. apply (unobserved_empty _ ks Hks).
    intros Hin. apply Hnot. rewrite Hk. now apply first_seen_complete.
Qed.

(** *** Balances *)

(** X9.  The balance of a group is a sum of integers and, unlike its
    average age, does not depend on the order of the records. *)
Theorem sum_values_reorder (evs evs' : list event) :
  Permutation evs evs' ->
  forall acc total,
    sum_values evs acc = Ok total -> sum_values evs' acc = Ok total.
Proof.
  induction 1 as [| tx l l' _ IH | x y l | l l' l'' _ IH1 _ IH2];
    intros acc total H.
  - exact H.
  - cbn [sum_values] in *. unfold int_ in *.
    destruct (value tx) as [s |]; [| discriminate]. cbn [getitem rbind] in *.
    destruct (py_int s) as [v |]; [| discriminate]. cbn [rbind] in *.
    now apply IH.
  - cbn [sum_values] in *. unfold int_ in *.
    destruct (value y) as [sy |]; [| discriminate]. cbn [getitem rbind] in *.
    destruct (py_int sy) as [vy |]; [| discriminate]. cbn [rbind] in *.
    destruct (value x) as [sx |]; [| discriminate]. cbn [getitem rbind] in *.
    destruct (py_int sx) as [vx |]; [| discriminate]. cbn [rbind] in *.
    now replace (acc + vx + vy) with (acc + vy + vx) by lia.
  - now apply IH2, IH1.
Qed.

(** *** The clock readings of [main] *)

Lemma compute_age_world (events : list event) (w w' : world) (x : PyFloat.float) :
  compute_age events w = Ok (x, w') -> w' = tick w.
Proof.
  rewrite compute_age_run. destruct (compute_age_at _ events); congruence.
Qed.

Lemma token_row_world (item : asset_key * list event) (w w' : world) (row : list cell) :
  token_row item w = Ok (row, w') -> w' = tick w.
Proof.
  destruct item as [[[c symbol] dec] evs]. unfold token_row, mbind, lift.
  destruct (compute_age evs w) as [[avg_age w1] |] eqn:Eage; [| discriminate].
  apply compute_age_world in Eage. subst w1.
  destruct (sum_values evs 0) as [total |]; [| discriminate]. cbn [rbind].
  destruct (int_ dec) as [d |]; [| discriminate]. cbn [rbind].
  destruct (pow10 d) as [p |]; [| discriminate]. cbn [rbind].
  destruct (int_div total p) as [balance |]; [| discriminate]. cbn [rbind].
  now intros [= _ <-].
Qed.

Lemma token_rows_world (items : dict) :
  forall rows w rows' w',
    token_rows items rows w = Ok (rows', w') ->
    wall w' = wall w /\
    reads w' = (reads w + List.length items)%nat /\
    List.length rows' = (List.length rows + List.length items)%nat.
Proof.
  induction items as [| item items IH]; intros rows w rows' w' H;
    cbn [token_rows] in H.
  - injection H as <- <-. cbn [List.length]. repeat split; lia.
  - unfold mbind in H.
    destruct (token_row item w) as [[row w1] |] eqn:Erow; [| discriminate].
    apply token_row_world in Erow. subst w1.
    destruct (IH _ _ _ _ H) as (Hwall & Hreads & Hlen).
    rewrite Hwall, Hreads, Hlen, length_app. cbn [tick wall reads List.length].
    repeat split; lia.
Qed.

(** X10.  [main] reads the clock once for the native group and once
    for every token group, one reading per row below the headings: the
    groups of one report are aged against successive instants. *)
Theorem main_clock_readings
    (address : string) (eth_txs token_txs : list event)
    (w w' : world) (rows : list (list cell)) :
  main address eth_txs token_txs w = Ok (rows, w') ->
  wall w' = wall w /\
  S (reads w') = (reads w + List.length rows)%nat.
Proof.
  unfold main, mbind, lift. intros H.
  destruct (incoming address eth_txs) as [eth_in |]; [| discriminate].
  destruct (compute_age eth_in w) as [[eth_age w1] |] eqn:Eage; [| discriminate].
  apply compute_age_world in Eage. subst w1.
  destruct (group_tokens address token_txs []) as [by_token |]; [| discriminate].
  destruct (sum_values eth_in 0) as [total |]; [| discriminate]. cbn [rbind] in H.
  destruct (PyFloat.int_truediv total (10 ^ 18)) as [eth_balance |];
    [| discriminate].
  cbn [rbind] in H.
  apply token_rows_world in H as (Hwall & Hreads & Hlen).
  rewrite Hwall, Hreads, Hlen. cbn [tick wall reads List.length].
  split; [reflexivity | lia].
Qed.

(** *** No partial report *)

Lemma age_days_valid (now : Z) (ev : event) :
  is_ok (age_days now ev) = true -> valid_timestamp ev.
Proof.
  unfold age_days, valid_timestamp, int_, fromtimestamp.
  destruct (timeStamp ev) as [s |]; [| discriminate]. cbn [getitem rbind].
  destruct (py_int s) as [t |] eqn:Et; [| discriminate]. cbn [rbind].
  destruct ((min_timestamp <=? t) && (t <=? max_timestamp)) eqn:E;
    [| discriminate].
  intros _. apply andb_true_iff in E as [E1 E2].
  apply Z.leb_le in E1, E2. exists s, t. repeat split; assumption.
Qed.

Lemma compute_age_readable (events : list event) (w w' : world) (x : PyFloat.float) :
  compute_age events w = Ok (x, w') -> Forall readable events.
Proof.
  rewrite compute_age_run. intros H.
  pose proof (compute_age_at_is_ok (wall w (reads w)) events) as Hok.
  destruct (compute_age_at _ events); [| discriminate]. cbn [is_ok] in Hok.
  symmetry in Hok. rewrite forallb_forall in Hok.
  apply Forall_forall. intros tx Hin. specialize (Hok tx Hin).
  unfold processable in Hok. apply andb_true_iff in Hok as [Ha Hm].
  split; [now apply (age_days_valid (wall w (reads w))) | exact Hm].
Qed.

Lemma token_rows_readable (items : dict) :
  forall rows w rows' w',
    token_rows items rows w = Ok (rows', w') ->
    Forall readable (records items).
Proof.
  induction items as [| item items IH]; intros rows w rows' w' H;
    cbn [token_rows] in H; [constructor |].
  unfold mbind in H.
  destruct (token_row item w) as [[row w1] |] eqn:Erow; [| discriminate].
  unfold records. cbn [map List.concat]. apply Forall_app. split.
  - destruct item as [[[c symbol] dec] evs]. cbn [snd].
    unfold token_row, mbind in Erow.
    destruct (compute_age evs w) as [[avg_age w2] |] eqn:Eage; [| discriminate].
    now apply compute_age_readable in Eage.
  - exact (IH _ _ _ _ H).
Qed.

(** X11.  A report comes out whole or not at all: when [main] returns
    its table, every incoming record, native or token, had a timestamp
    that is a datetime and an amount that could be computed. *)
Theorem main_all_or_nothing
    (address : string) (eth_txs token_txs : list event)
    (w w' : world) (rows : list (list cell)) :
  main address eth_txs token_txs w = Ok (rows, w') ->
  Forall readable (filter (recipient_matches address) eth_txs) /\
  Forall readable (filter (recipient_matches address) token_txs).
Proof.
  unfold main, mbind, lift. intros H.
  destruct (incoming address eth_txs) as [eth_in |] eqn:Ein; [| discriminate].
  apply incoming_filter in Ein. subst eth_in.
  destruct (compute_age _ w) as [[eth_age w1] |] eqn:Eage; [| discriminate].
  apply compute_age_readable in Eage.
  destruct (group_tokens address token_txs []) as [by_token |] eqn:Egrp;
    [| discriminate].
  destruct (sum_values _ 0) as [total |]; [| discriminate]. cbn [rbind] in H.
  destruct (PyFloat.int_truediv total (10 ^ 18)) as [eth_balance |];
    [| discriminate].
  cbn [rbind] in H. apply token_rows_readable in H.
  split; [exact Eage |].
  destruct (group_tokens_inv address token_txs [] by_token Egrp) as (Hperm & _).
  exact (Permutation_Forall Hperm H).
Qed.

(** *** Groups and the triple of fields *)

Lemma key_of_fields (tx1 tx2 : event) :
  contractAddress tx1 = contractAddress tx2 ->
  tokenSymbol tx1 = tokenSymbol tx2 ->
  tokenDecimal tx1 = tokenDecimal tx2 ->
  key_of tx1 = key_of tx2.
Proof. unfold key_of. now intros -> -> ->. Qed.

Lemma carries_same (tx1 tx2 : event) (k : asset_key) :
  carries tx1 k -> carries tx2 k ->
  contractAddress tx1 = contractAddress tx2 /\
  tokenSymbol tx1 = tokenSymbol tx2 /\
  tokenDecimal tx1 = tokenDecimal tx2.
Proof.
  destruct k as [[c s] d]. intros (A1 & B1 & C1) (A2 & B2 & C2).
  repeat split; congruence.
Qed.

(** C6.  Token records are grouped by the whole triple of contract
    address, symbol and decimals: two incoming records lie in one group
    exactly when their three fields [contractAddress], [tokenSymbol] and
    [tokenDecimal] are equal, the key of the group of a record is the
    triple of its fields, and so two incoming records of one contract
    that declare different decimals are placed in different groups. *)
Theorem different_decimals_different_groups
    (address : string) (token_txs : list event) (by_token : dict)
    (tx1 tx2 : event) :
  group_tokens address token_txs [] = Ok by_token ->
  In tx1 token_txs -> In tx2 token_txs ->
  recipient_matches address tx1 = true ->
  recipient_matches address tx2 = true ->
  ((exists k evs, In (k, evs) by_token /\ In tx1 evs /\ In tx2 evs) <->
   (contractAddress tx1 = contractAddress tx2 /\
    tokenSymbol tx1 = tokenSymbol tx2 /\
    tokenDecimal tx1 = tokenDecimal tx2)) /\
  (exists k1 evs1 k2 evs2,
      carries tx1 k1 /\ In (k1, evs1) by_token /\ In tx1 evs1 /\
      carries tx2 k2 /\ In (k2, evs2) by_token /\ In tx2 evs2) /\
  (contractAddress tx1 = contractAddress tx2 ->
   tokenDecimal tx1 <> tokenDecimal tx2 ->
   forall k evs, In (k, evs) by_token -> ~ (In tx1 evs /\ In tx2 evs)).
Proof.
  intros Hgrp Hin1 Hin2 Hm1 Hm2.
  destruct (group_tokens_inv address token_txs [] by_token Hgrp)
    as (Hperm & Hkeyed & _).
  specialize (Hkeyed keyed_nil).
  pose proof (group_tokens_keys_nodup address token_txs by_token Hgrp) as Hnd.
  assert (Hrec : forall tx, In tx token_txs -> recipient_matches address tx = true ->
                            exists k evs, In (k, evs) by_token /\ In tx evs /\ key_of tx = Ok k).
  { intros tx Hin Hm.
    assert (Hr : In tx (records by_token)).
    { apply (Permutation_in tx (Permutation_sym Hperm)).
      cbn [records map List.concat app]. apply filter_In. now split. }
    apply in_records in Hr as (k & evs & Hk & Htx).
    exists k, evs. repeat split; try assumption. now apply (Hkeyed k evs). }
  destruct (Hrec tx1 Hin1 Hm1) as (k1 & evs1 & A1 & B1 & C1).
  destruct (Hrec tx2 Hin2 Hm2) as (k2 & evs2 & A2 & B2 & C2).
  assert (Hshare : (exists k evs, In (k, evs) by_token /\ In tx1 evs /\ In tx2 evs) ->
                   contractAddress tx1 = contractAddress tx2 /\
                   tokenSymbol tx1 = tokenSymbol tx2 /\
                   tokenDecimal tx1 = tokenDecimal tx2).
  { intros (k & evs & Hk & H1 & H2).
    apply (carries_same tx1 tx2 k); apply key_of_carries; now apply (Hkeyed k evs). }
  split; [| split].
  - split; [exact Hshare |]. intros (Hc & Hs & Hd).
    rewrite (key_of_fields tx1 tx2 Hc Hs Hd), C2 in C1. injection C1 as <-.
    exists k2, evs2. split; [exact A2 |]. split; [| exact B2].
    rewrite <- (get_in by_token k2 evs2 Hnd A2).
    now rewrite (get_in by_token k2 evs1 Hnd A1).
  - exists k1, evs1, k2, evs2.
    repeat split; try assumption; now apply key_of_carries.
  - intros _ Hdec k evs Hk Hboth.
    destruct Hshare as (_ & _ & Hd); [now exists k, evs | contradiction].
Qed.

End ClassificationFacts.

(** ** The script *)

Section ScriptFacts.

Context {RT : Runtime}.

Lemma main_split (address : string) (eth_txs token_txs : list event) (w : world) :
  main address eth_txs token_txs w =
    match main_head address eth_txs w with
    | Ok ((eth_in, eth_age), w1) => main_tail address eth_in eth_age token_txs w1
    | Raise e => Raise e
    end.
Proof.
  unfold main, main_head, main_tail, mbind, mret, lift.
  destruct (incoming address eth_txs) as [eth_in |]; [| reflexivity].
  now destruct (compute_age eth_in w) as [[eth_age w1] |].
Qed.

(** When the lines after [requests.get] return the result. *)
Lemma read_response_returns
    (error_message : string -> effect) (resp : response)
    (printed : list effect) (txs : list event) :
  read_response error_message resp = (printed, inr txs) <->
  printed = [] /\
  exists text data,
    resp = Json text data /\ status data = Some "1" /\ result_ data = Some txs.
Proof.
  unfold read_response. split.
  - destruct resp as [| text | text data]; try discriminate.
    destruct (status data) as [st |] eqn:Est; [| discriminate].
    destruct (String.eqb st "1") eqn:E1; [| discriminate].
    apply String.eqb_eq in E1. subst st.
    destruct (result_ data) as [l |] eqn:Er; [| discriminate].
    intros [= <- <-]. split; [reflexivity |]. now exists text, data.
  - intros (-> & text & data & -> & -> & ->). reflexivity.
Qed.

Lemma read_response_quiet (error_message : string -> effect) (resp : response) :
  (forall d, error_message d <> Table [] /\
             requests [error_message d] = [] /\
             prints_table [error_message d] = false) ->
  requests (fst (read_response error_message resp)) = [] /\
  prints_table (fst (read_response error_message resp)) = false.
Proof.
  intros Hmsg. unfold read_response.
  destruct resp as [| text | text data]; try (split; reflexivity).
  destruct (status data) as [st |]; [| split; reflexivity].
  destruct (String.eqb st "1").
  - destruct (result_ data); split; reflexivity.
  - cbn [fst]. split; apply Hmsg.
Qed.

Lemma fetch_eth_trace (address key : string) (net : network) :
  requests (fst (fetch_eth_balance_events address key net)) = [eth_params address key] /\
  prints_table (fst (fetch_eth_balance_events address key net)) = false.
Proof.
  unfold fetch_eth_balance_events.
  destruct (read_response_quiet EthErrorMessage (net (eth_params address key)))
    as [Hr Ht]; [intros d; repeat split; discriminate |].
  destruct (read_response _ _) as [printed r]. cbn [fst] in *.
  cbn [requests prints_table existsb orb]. split; [now rewrite Hr | exact Ht].
Qed.

Lemma fetch_erc20_trace (address key : string) (net : network) :
  requests (fst (fetch_erc20_events address key net)) = [erc20_params address key] /\
  prints_table (fst (fetch_erc20_events address key net)) = false.
Proof.
  unfold fetch_erc20_events.
  destruct (read_response_quiet TokenErrorMessage (net (erc20_params address key)))
    as [Hr Ht]; [intros d; repeat split; discriminate |].
  destruct (read_response _ _) as [printed r]. cbn [fst] in *.
  cbn [requests prints_table existsb orb]. split; [now rewrite Hr | exact Ht].
Qed.

Lemma requests_app (t1 t2 : list effect) :
  requests (t1 ++ t2) = requests t1 ++ requests t2.
Proof.
  induction t1 as [| e t1 IH]; [reflexivity |].
  destruct e; cbn [app requests]; now rewrite IH.
Qed.

Lemma prints_table_app (t1 t2 : list effect) :
  prints_table (t1 ++ t2) = prints_table t1 || prints_table t2.
Proof. unfold prints_table. apply existsb_app. Qed.

Lemma fetch_eth_returns (address key : string) (net : network)
    (trace : list effect) (txs : list event) :
  fetch_eth_balance_events address key net = (trace, inr txs) <->
  trace = [Request (eth_params address key)] /\
  exists text data,
    net (eth_params address key) = Json text data /\
    status data = Some "1" /\ result_ data = Some txs.
Proof.
  unfold fetch_eth_balance_events.
  pose proof (read_response_returns EthErrorMessage (net (eth_params address key))) as H.
  destruct (read_response _ _) as [printed r]. split.
  - intros [= <- ->]. destruct (proj1 (H printed txs) eq_refl) as [-> Hex].
    now split.
  - intros [-> Hex]. pose proof (proj2 (H [] txs) (conj eq_refl Hex)) as Heq.
    injection Heq as -> ->. reflexivity.
Qed.

Lemma fetch_erc20_returns (address key : string) (net : network)
    (trace : list effect) (txs : list event) :
  fetch_erc20_events address key net = (trace, inr txs) <->
  trace = [Request (erc20_params address key)] /\
  exists text data,
    net (erc20_params address key) = Json text data /\
    status data = Some "1" /\ result_ data = Some txs.
Proof.
  unfold fetch_erc20_events.
  pose proof (read_response_returns TokenErrorMessage (net (erc20_params address key))) as H.
  destruct (read_response _ _) as [printed r]. split.
  - intros [= <- ->]. destruct (proj1 (H printed txs) eq_refl) as [-> Hex].
    now split.
  - intros [-> Hex]. pose proof (proj2 (H [] txs) (conj eq_refl Hex)) as Heq.
    injection Heq as -> ->. reflexivity.
Qed.

(** X12.  The script runs to its end exactly when an API key is given,
    both replies of the explorer are JSON objects with status ["1"] and
    a result, and [main] succeeds on the two results; it then has sent
    two requests, the native one first, and printed the table of [main]
    and nothing else after the banner. *)
Theorem script_runs_to_end
    (address : string) (apikey : option string) (net : network) (w : world)
    (trace : list effect) :
  script address apikey net w = (trace, None) <->
  exists key text1 data1 eth_txs text2 data2 token_txs rows w',
    apikey = Some key /\ key <> "" /\
    net (eth_params address key) = Json text1 data1 /\
    status data1 = Some "1" /\ result_ data1 = Some eth_txs /\
    net (erc20_params address key) = Json text2 data2 /\
    status data2 = Some "1" /\ result_ data2 = Some token_txs /\
    main address eth_txs token_txs w = Ok (rows, w') /\
    trace = [Banner address; Request (eth_params address key);
             Request (erc20_params address key); Table rows].
Proof.
  split.
  - unfold script. destruct apikey as [[| c k] |]; try discriminate.
    set (key := String c k).
    destruct (fetch_eth_balance_events address key net) as [t1 r1] eqn:E1.
    destruct r1 as [h | eth_txs]; [discriminate |].
    apply fetch_eth_returns in E1 as (-> & text1 & data1 & N1 & S1 & R1).
    destruct (main_head address eth_txs w) as [[[eth_in eth_age] w1] |] eqn:Eh;
      [| discriminate].
    destruct (fetch_erc20_events address key net) as [t2 r2] eqn:E2.
    destruct r2 as [h | token_txs]; [discriminate |].
    apply fetch_erc20_returns in E2 as (-> & text2 & data2 & N2 & S2 & R2).
    destruct (main_tail address eth_in eth_age token_txs w1) as [[rows w2] |] eqn:Et;
      [| discriminate].
    intros [= <-].
    exists key, text1, data1, eth_txs, text2, data2, token_txs, rows, w2.
    repeat split; try assumption; try discriminate.
    now rewrite main_split, Eh.
  - intros (key & text1 & data1 & eth_txs & text2 & data2 & token_txs & rows & w'
            & -> & Hkey & N1 & S1 & R1 & N2 & S2 & R2 & Hmain & ->).
    unfold script. destruct key as [| c k]; [congruence |].
    rewrite (proj2 (fetch_eth_returns address (String c k) net _ eth_txs))
      by (split; [reflexivity | now exists text1, data1]).
    rewrite main_split in Hmain.
    destruct (main_head address eth_txs w) as [[[eth_in eth_age] w1] |];
      [| discriminate].
    rewrite (proj2 (fetch_erc20_returns address (String c k) net _ token_txs))
      by (split; [reflexivity | now exists text2, data2]).
    now rewrite Hmain.
Qed.

(** X13.  Once the native transfers cannot be fetched or aged, nothing
    more is asked of the explorer: the token request is never sent, no
    table is printed and the run halts. *)
Theorem script_stops_at_first_failure
    (address key : string) (net : network) (w : world) :
  key <> "" ->
  (exists h, snd (fetch_eth_balance_events address key net) = inl h) \/
  (exists eth_txs e,
      snd (fetch_eth_balance_events address key net) = inr eth_txs /\
      main_head address eth_txs w = Raise e) ->
  requests (fst (script address (Some key) net w)) = [eth_params address key] /\
  prints_table (fst (script address (Some key) net w)) = false /\
  snd (script address (Some key) net w) <> None.
Proof.
  intros Hkey H. unfold script. destruct key as [| c k]; [congruence |].
  set (key := String c k) in *.
  destruct (fetch_eth_trace address key net) as [Hreq Htab].
  destruct (fetch_eth_balance_events address key net) as [t1 r1].
  cbn [fst snd] in *.
  destruct H as [[h ->] | (eth_txs & e & -> & ->)];
    cbn [fst snd requests prints_table existsb orb];
    (split; [exact Hreq | split; [exact Htab | discriminate]]).
Qed.

(** X14.  Without an API key nothing is sent; with one, the native
    request always is. *)
Theorem script_requests
    (address : string) (apikey : option string) (net : network) (w : world) :
  (requests (fst (script address apikey net w)) = [] <->
   apikey = None \/ apikey = Some "") /\
  (forall key, apikey = Some key -> key <> "" ->
               hd_error (requests (fst (script address apikey net w))) =
                 Some (eth_params address key)).
Proof.
  assert (Hhead : forall c k,
             hd_error (requests (fst (script address (Some (String c k)) net w))) =
               Some (eth_params address (String c k))).
  { intros c k. unfold script. set (key := String c k).
    destruct (fetch_eth_trace address key net) as [Hreq _].
    destruct (fetch_eth_balance_events address key net) as [t1 r1].
    cbn [fst] in Hreq. destruct r1 as [h | eth_txs].
    - cbn [fst requests]. now rewrite Hreq.
    - destruct (main_head address eth_txs w) as [[[eth_in eth_age] w1] |].
      + destruct (fetch_erc20_events address key net) as [t2 r2].
        destruct r2 as [h | token_txs].
        * cbn [fst requests]. now rewrite requests_app, Hreq.
        * destruct (main_tail _ _ _ _ _) as [[rows w2] |];
            cbn [fst requests]; now rewrite requests_app, Hreq.
      + cbn [fst requests]. now rewrite Hreq. }
  split.
  - destruct apikey as [[| c k] |].
    + split; [now right | reflexivity].
    + split.
      * intros H. specialize (Hhead c k). rewrite H in Hhead. discriminate.
      * intros [H | H]; discriminate.
    + split; [now left | reflexivity].
  - intros key -> Hkey. destruct key as [| c k]; [congruence | apply Hhead].
Qed.

(** X15.  A reply whose status is not ["1"], such as the explorer's
    reply that no transactions were found, ends the run with exit status
    1 after one line on stderr: the reply's message or, when it has none,
    the raw body. *)
Theorem script_explorer_error
    (address key : string) (net : network) (w : world)
    (text st : string) (data : reply) :
  key <> "" ->
  net (eth_params address key) = Json text data ->
  status data = Some st -> st <> "1" ->
  script address (Some key) net w =
    ([Banner address; Request (eth_params address key);
      EthErrorMessage (match message data with Some m => m | None => text end)],
     Some (SystemExit 1)).
Proof.
  intros Hkey Hnet Hst Hne. unfold script, fetch_eth_balance_events, read_response.
  destruct key as [| c k]; [congruence |].
  rewrite Hnet, Hst. apply String.eqb_neq in Hne. now rewrite Hne.
Qed.

End ScriptFacts.

(** ** Further properties at concrete inputs *)

Section MoreRuns.

Import PyFloat Examples MoreExamples.

#[local] Existing Instance ascii_runtime.

Ltac timestamp_ok' :=
  eexists _, _; split; [reflexivity | split; [reflexivity | vm_compute; split; discriminate]].

Ltac reads_ok' :=
  split; [eexists; split; reflexivity | split; [eexists; split; reflexivity | reflexivity]].

Ltac range_ok' :=
  split; [vm_compute; split; discriminate | split; [vm_compute; discriminate | vm_compute; reflexivity]].

Ltac all_read' :=
  repeat (first [apply Forall2_nil | apply Forall2_cons; [reads_ok' |]]).

Ltac all_in_range' :=
  repeat (first [apply Forall_nil | apply Forall_cons; [range_ok' |]]).

Ltac all_received :=
  repeat (first [apply Forall_nil
                | apply Forall_cons; [split; vm_compute; discriminate |]]).

Lemma w0_is_valid : Spec.valid_now (wall w0 (reads w0)).
Proof. vm_compute. split; discriminate. Qed.

Lemma compute_age_not_negative_witness :
  exists x,
    compute_age [hundred_ten_days; three_hundred_two_days] w0 = Ok (x, tick w0) /\
    SFltb x zero = false.
Proof.
  apply (compute_age_not_negative
           [hundred_ten_days; three_hundred_two_days] [r100; r300] w0).
  - exact w0_is_valid.
  - all_read'.
  - all_in_range'.
  - all_received.
Defined.

Lemma compute_age_of_now_witness :
  compute_age [just_now] w0 = Ok (zero, tick w0).
Proof.
  apply (compute_age_of_now [just_now] [r_now] w0).
  - exact w0_is_valid.
  - all_read'.
  - all_in_range'.
  - apply Forall_cons; [| apply Forall_nil]. split; [vm_compute; discriminate | reflexivity].
Defined.

Lemma compute_age_first_error_witness :
  compute_age ([hundred_ten_days] ++ year_10000 :: [three_hundred_two_days]) w0 =
    Raise DatetimeRangeError.
Proof.
  apply (compute_age_first_error
           [hundred_ten_days] [three_hundred_two_days] year_10000
           DatetimeRangeError w0); reflexivity.
Defined.

Lemma amount_of_word_witness :
  amount hundred_ten_days = Ok (quotient 100000000000000000000 (10 ^ 18)) /\
  positive_or_zero (quotient 100000000000000000000 (10 ^ 18)) = true /\
  is_infinite (quotient 100000000000000000000 (10 ^ 18)) = false.
Proof.
  apply (amount_of_word hundred_ten_days "100000000000000000000").
  - reflexivity.
  - reflexivity.
  - reflexivity.
  - vm_compute. discriminate.
  - vm_compute. split; [discriminate | reflexivity].
Defined.

Lemma incoming_idempotent_witness :
  incoming query_address [shouting] = Ok [shouting].
Proof.
  apply (incoming_idempotent query_address [elsewhere; shouting] [shouting]).
  reflexivity.
Defined.

Lemma groups_in_input_order_witness :
  NoDup (keys [(("0xc1", "AAA", "18"), [tok_a; tok_b]); (("0xc1", "AAA", "6"), [tok_six])]).
Proof.
  apply (groups_in_input_order query_address [tok_a; tok_other; tok_six; tok_b]
           [(("0xc1", "AAA", "18"), [tok_a; tok_b]); (("0xc1", "AAA", "6"), [tok_six])]).
  reflexivity.
Defined.

Lemma sum_values_reorder_witness :
  sum_values [three_hundred_two_days; hundred_ten_days] 0 =
    Ok 400000000000000000000.
Proof.
  apply (sum_values_reorder
           [hundred_ten_days; three_hundred_two_days]
           [three_hundred_two_days; hundred_ten_days]).
  - apply perm_swap.
  - reflexivity.
Defined.

Lemma main_clock_readings_witness :
  exists (rows : list (list cell)) (w' : world),
    wall w' = wall w0 /\ S (reads w') = (reads w0 + List.length rows)%nat.
Proof.
  eexists _, _.
  eapply (main_clock_readings query_address [elsewhere; shouting]
            [tok_a; tok_other; tok_six; tok_b] w0).
  vm_compute. reflexivity.
Defined.

Lemma main_all_or_nothing_witness :
  Forall readable (filter (recipient_matches query_address) [elsewhere; shouting]) /\
  Forall readable
    (filter (recipient_matches query_address) [tok_a; tok_other; tok_six; tok_b]).
Proof.
  eapply (main_all_or_nothing query_address [elsewhere; shouting]
            [tok_a; tok_other; tok_six; tok_b] w0).
  vm_compute. reflexivity.
Defined.

Lemma script_stops_at_first_failure_witness :
  requests (fst (script query_address (Some "KEY") no_transactions w0)) =
    [eth_params query_address "KEY"] /\
  prints_table (fst (script query_address (Some "KEY") no_transactions w0)) = false /\
  snd (script query_address (Some "KEY") no_transactions w0) <> None.
Proof.
  apply (script_stops_at_first_failure query_address "KEY" no_transactions w0).
  - discriminate.
  - left. eexists. reflexivity.
Defined.

Lemma script_explorer_error_witness :
  script query_address (Some "KEY") no_transactions w0 =
    ([Banner query_address; Request (eth_params query_address "KEY");
      EthErrorMessage "No transactions found"],
     Some (SystemExit 1)).
Proof.
  apply (script_explorer_error query_address "KEY" no_transactions w0
           "{...}" "0"
           {| status := Some "0"; message := Some "No transactions found";
              result_ := Some [] |}).
  - discriminate.
  - reflexivity.
  - reflexivity.
  - discriminate.
Defined.

Lemma different_decimals_different_groups_witness :
  (exists k evs,
      In (k, evs)
         [(("0xc1", "AAA", "18"), [tok_a; tok_b]); (("0xc1", "AAA", "6"), [tok_six])] /\
      In tok_a evs /\ In tok_b evs) /\
  ~ (exists k evs,
        In (k, evs)
           [(("0xc1", "AAA", "18"), [tok_a; tok_b]); (("0xc1", "AAA", "6"), [tok_six])] /\
        In tok_a evs /\ In tok_six evs).
Proof.
  split.
  - apply (different_decimals_different_groups
             query_address [tok_a; tok_other; tok_six; tok_b]
             [(("0xc1", "AAA", "18"), [tok_a; tok_b]); (("0xc1", "AAA", "6"), [tok_six])]
             tok_a tok_b).
    + reflexivity.
    + simpl. auto.
    + simpl. auto.
    + reflexivity.
    + reflexivity.
    + repeat split; reflexivity.
  - intros H.
    apply (different_decimals_different_groups
             query_address [tok_a; tok_other; tok_six; tok_b]
             [(("0xc1", "AAA", "18"), [tok_a; tok_b]); (("0xc1", "AAA", "6"), [tok_six])]
             tok_a tok_six) in H.
    + destruct H as (_ & _ & H). discriminate H.
    + reflexivity.
    + simpl. auto.
    + simpl. auto.
    + reflexivity.
    + reflexivity.
Defined.

End MoreRuns.
